(** * metapool: pooling volumes, pool estimate and Echo pick list

    A shallow embedding of [src/metapool/metapool.py]:

    - [compute_shotgun_pooling_values_eqvol]
    - [compute_shotgun_pooling_values_qpcr]
    - [estimate_pool_conc_vol]
    - [format_pooling_echo_pick_list]

    The Python code computes on numpy [float64] arrays.  The functions are
    translated once, over an interface [Number] of the float operations they
    use, and the interface has two instances:

    - [binary64]: Rocq's primitive IEEE 754 binary64 floats, bit for bit what
      the machine computes (rounding, infinities, NaN);
    - [xreal]: rationals extended with NaN and the two infinities, with the
      IEEE rules for the special values and no rounding.

    Statements about one concrete input are evaluated on [binary64].
    Statements about every input that rest only on the IEEE rules for NaN,
    zero and infinity are proved for both instances at once; those that rest
    on arithmetic are proved on [xreal], that is, up to rounding.

    [ndarray.sum] is taken first to last in row-major order; numpy's blocked
    summation of eight and more entries can round differently, which the
    statements on [xreal] do not see. *)

From Stdlib Require Import ZArith QArith Qabs Lia Lqa Bool List String Ascii.
From Stdlib Require Import DecimalString Floats.
Import ListNotations.

Open Scope string_scope.
Open Scope Z_scope.

(** ** Python exceptions *)

Inductive exn : Type :=
| ZeroDivisionError
| IndexError
| ValueError.

Inductive result (A : Type) : Type :=
| Ok (a : A)
| Raise (e : exn).

Arguments Ok {A} a.
Arguments Raise {A} e.

Definition bind {A B : Type} (r : result A) (k : A -> result B) : result B :=
  match r with
  | Ok a => k a
  | Raise e => Raise e
  end.

Notation "x <- r ;; k" := (bind r (fun x => k))
  (at level 61, r at next level, right associativity).

(** ** What a float looks like from outside

    [fview] is what formatting and the theorems see of a float: NaN, an
    infinity with its sign, or a finite value given by sign and magnitude (so
    that [-0.0] keeps its sign). *)

Inductive fview : Type :=
| VNaN
| VInf (neg : bool)
| VFin (neg : bool) (mag : Q).

(** ** The float operations the module uses *)

Class Number (F : Type) : Type := {
  of_Z : Z -> F;               (* int -> float64 *)
  fadd : F -> F -> F;
  fmul : F -> F -> F;
  fdiv : F -> F -> F;          (* numpy division: x/0 is inf or nan, no exception *)
  fle : F -> F -> bool;        (* <=, False when an operand is NaN *)
  flt : F -> F -> bool;        (* <,  False when an operand is NaN *)
  view : F -> fview
}.

Definition is_nan {F} `{Number F} (x : F) : bool :=
  match view x with
  | VNaN => true
  | _ => false
  end.

(** ** Strings: [chr], ["%d"], ["%.2f"], [str.join] *)

Definition byte_string (n : Z) : string :=
  String (ascii_of_N (Z.to_N n)) EmptyString.

(** Python's [chr]: a code point as a one-character string (its UTF-8 bytes
    here), [ValueError] outside [0, 0x10FFFF]. *)
Definition chr (n : Z) : result string :=
  if (n <? 0) || (1114111 <? n) then Raise ValueError
  else if n <? 128 then Ok (byte_string n)
  else if n <? 2048 then
    Ok (byte_string (192 + n / 64) ++ byte_string (128 + n mod 64))
  else if n <? 65536 then
    Ok (byte_string (224 + n / 4096) ++ byte_string (128 + (n / 64) mod 64)
        ++ byte_string (128 + n mod 64))
  else
    Ok (byte_string (240 + n / 262144) ++ byte_string (128 + (n / 4096) mod 64)
        ++ byte_string (128 + (n / 64) mod 64) ++ byte_string (128 + n mod 64)).

(** ["%d" % n] *)
Definition fmt_d (n : Z) : string := NilZero.string_of_int (Z.to_int n).

(** Nearest integer to a non-negative rational, ties to even. *)
Definition round_half_even (q : Q) : Z :=
  let n := Qnum q in
  let d := Zpos (Qden q) in
  let lo := n / d in
  match (2 * (n mod d)) ?= d with
  | Lt => lo
  | Gt => lo + 1
  | Eq => if Z.even lo then lo else lo + 1
  end.

Definition two_digits (n : Z) : string :=
  if n <? 10 then "0" ++ fmt_d n else fmt_d n.

(** ["%.2f" % x] on what [x] looks like. *)
Definition fmt_2f_view (v : fview) : string :=
  match v with
  | VNaN => "nan"
  | VInf false => "inf"
  | VInf true => "-inf"
  | VFin neg mag =>
      let c := round_half_even (Qmult mag (100 # 1)) in
      (if neg then "-" else "") ++ fmt_d (c / 100) ++ "." ++ two_digits (c mod 100)
  end.

Definition fmt_2f {F} `{Number F} (x : F) : string := fmt_2f_view (view x).

Fixpoint join (sep : string) (l : list string) : string :=
  match l with
  | [] => ""
  | [s] => s
  | s :: rest => s ++ sep ++ join sep rest
  end.

(** ** Instance 1: IEEE 754 binary64 *)

Definition b64_of_Z (z : Z) : float :=
  SF2Prim (binary_normalize prec emax z 0 false).

Definition b64_view (x : float) : fview :=
  match Prim2SF x with
  | S754_nan => VNaN
  | S754_infinity s => VInf s
  | S754_zero s => VFin s (0 # 1)
  | S754_finite s m e =>
      match e with
      | Zneg p => VFin s (Zpos m # Pos.pow 2 p)
      | _ => VFin s ((Zpos m * 2 ^ e) # 1)
      end
  end.

#[export] Instance binary64 : Number float := {
  of_Z := b64_of_Z;
  fadd := PrimFloat.add;
  fmul := PrimFloat.mul;
  fdiv := PrimFloat.div;
  fle := PrimFloat.leb;
  flt := PrimFloat.ltb;
  view := b64_view
}.

(** ** Instance 2: extended rationals, no rounding

    One zero only, read as [+0]: [x / 0] has the sign of [x]. *)

Inductive xreal : Type :=
| XNaN
| XInf (neg : bool)
| XFin (q : Q).

Definition Qneg (q : Q) : bool := Qnum q <? 0.
Definition Qzero (q : Q) : bool := Qnum q =? 0.

Definition xadd (x y : xreal) : xreal :=
  match x, y with
  | XNaN, _ | _, XNaN => XNaN
  | XInf s, XInf t => if Bool.eqb s t then XInf s else XNaN
  | XInf s, XFin _ => XInf s
  | XFin _, XInf t => XInf t
  | XFin p, XFin q => XFin (p + q)
  end.

Definition xmul (x y : xreal) : xreal :=
  match x, y with
  | XNaN, _ | _, XNaN => XNaN
  | XInf s, XInf t => XInf (xorb s t)
  | XInf s, XFin q => if Qzero q then XNaN else XInf (xorb s (Qneg q))
  | XFin p, XInf t => if Qzero p then XNaN else XInf (xorb (Qneg p) t)
  | XFin p, XFin q => XFin (p * q)
  end.

Definition xdiv (x y : xreal) : xreal :=
  match x, y with
  | XNaN, _ | _, XNaN => XNaN
  | XInf _, XInf _ => XNaN
  | XInf s, XFin q => XInf (xorb s (Qneg q))
  | XFin _, XInf _ => XFin 0
  | XFin p, XFin q =>
      if Qzero q then (if Qzero p then XNaN else XInf (Qneg p))
      else XFin (p / q)
  end.

Definition xle (x y : xreal) : bool :=
  match x, y with
  | XNaN, _ | _, XNaN => false
  | XInf s, XInf t => implb t s
  | XInf s, XFin _ => s
  | XFin _, XInf t => negb t
  | XFin p, XFin q => Qle_bool p q
  end.

Definition xlt (x y : xreal) : bool :=
  match x, y with
  | XNaN, _ | _, XNaN => false
  | XInf s, XInf t => s && negb t
  | XInf s, XFin _ => s
  | XFin _, XInf t => negb t
  | XFin p, XFin q => negb (Qle_bool q p)
  end.

Definition xview (x : xreal) : fview :=
  match x with
  | XNaN => VNaN
  | XInf s => VInf s
  | XFin q => VFin (Qneg q) (Qabs q)
  end.

#[export] Instance exact : Number xreal := {
  of_Z := fun z => XFin (inject_Z z);
  fadd := xadd;
  fmul := xmul;
  fdiv := xdiv;
  fle := xle;
  flt := xlt;
  view := xview
}.

(** Equality of extended rationals: the same special value, or equal
    rationals. *)
Definition xeq (x y : xreal) : Prop :=
  match x, y with
  | XNaN, XNaN => True
  | XInf s, XInf t => s = t
  | XFin p, XFin q => p == q
  | _, _ => False
  end.

(** ** numpy arrays

    A 2-D array is the list of its rows; [flatten] is its row-major (C order)
    sequence of entries, the order in which [ndarray.sum] is taken here and in
    which the pick list visits the wells. *)

Definition matrix (F : Type) : Type := list (list F).

Definition flatten {F} (m : matrix F) : list F := List.concat m.

(** [ndarray.size] *)
Definition size {F} (m : matrix F) : nat := List.length (flatten m).

(** The row lengths; two arrays have the same shape when these agree. *)
Definition shape {F} (m : matrix F) : list nat := map (@List.length F) m.

Fixpoint same_shape_b (s t : list nat) : bool :=
  match s, t with
  | [], [] => true
  | a :: s', b :: t' => Nat.eqb a b && same_shape_b s' t'
  | _, _ => false
  end.

Definition mmap {A B} (f : A -> B) (m : matrix A) : matrix B := map (map f) m.

Fixpoint zip_with {A B C} (f : A -> B -> C) (l : list A) (r : list B) : list C :=
  match l, r with
  | a :: l', b :: r' => f a b :: zip_with f l' r'
  | _, _ => []
  end.

Definition mzip_with {A B C} (f : A -> B -> C) (m : matrix A) (n : matrix B)
  : matrix C :=
  zip_with (zip_with f) m n.

Section Metapool.

Context {F : Type} `{Number F}.

(** [ndarray.sum()]: the entries added up from 0, first to last. *)
Definition fsum (l : list F) : F := fold_left fadd l (of_Z 0).

(** *** compute_shotgun_pooling_values_eqvol

    [total_vol / sample_concs.size] divides a Python float by a Python int:
    for an array without entries that raises. *)
Definition compute_shotgun_pooling_values_eqvol
    (sample_concs : matrix F) (total_vol : F) : result (matrix F) :=
  if Nat.eqb (size sample_concs) 0 then Raise ZeroDivisionError
  else
    let per_sample_vol :=
      fmul (fdiv total_vol (of_Z (Z.of_nat (size sample_concs)))) (of_Z 1000) in
    let sample_vols :=
      mmap (fun _ => fadd (of_Z 0) per_sample_vol) sample_concs in
    Ok sample_vols.

(** *** compute_shotgun_pooling_values_qpcr, step by step *)

(** [np.ones(sample_concs.shape) / sample_concs.size] *)
Definition default_sample_fracs (sample_concs : matrix F) : matrix F :=
  mmap (fun _ => fdiv (of_Z 1) (of_Z (Z.of_nat (size sample_concs))))
       sample_concs.

(** [sample_fracs_pass = sample_fracs.copy();
     sample_fracs_pass[sample_concs <= min_conc] = 0] *)
Definition threshold_fracs (sample_concs sample_fracs : matrix F) (min_conc : F)
  : matrix F :=
  mzip_with (fun c f => if fle c min_conc then of_Z 0 else f)
            sample_concs sample_fracs.

(** [sample_fracs_pass *= 1/sample_fracs_pass.sum()] *)
Definition renormalize (sample_fracs_pass : matrix F) : matrix F :=
  let r := fdiv (of_Z 1) (fsum (flatten sample_fracs_pass)) in
  mmap (fun f => fmul f r) sample_fracs_pass.

(** [sample_concs_floor = sample_concs.copy();
     sample_concs_floor[sample_concs < floor_conc] = floor_conc] *)
Definition floor_concs (sample_concs : matrix F) (floor_conc : F) : matrix F :=
  mmap (fun c => if flt c floor_conc then floor_conc else c) sample_concs.

(** [sample_vols = (total_nmol * sample_fracs_pass) / sample_concs_floor;
     sample_vols *= 10**9] *)
Definition volumes (total_nmol : F) (sample_fracs_pass sample_concs_floor : matrix F)
  : matrix F :=
  mzip_with (fun f c => fmul (fdiv (fmul total_nmol f) c) (of_Z (10 ^ 9)))
            sample_fracs_pass sample_concs_floor.

(** [sample_fracs = None] is the default; a [sample_fracs] of another shape
    makes the boolean-mask assignment raise. *)
Definition compute_shotgun_pooling_values_qpcr
    (sample_concs : matrix F) (sample_fracs : option (matrix F))
    (min_conc floor_conc total_nmol : F) : result (matrix F) :=
  let sample_fracs :=
    match sample_fracs with
    | None => default_sample_fracs sample_concs
    | Some fr => fr
    end in
  if negb (same_shape_b (shape sample_concs) (shape sample_fracs))
  then Raise IndexError
  else
    let sample_fracs_pass :=
      renormalize (threshold_fracs sample_concs sample_fracs min_conc) in
    let sample_concs_floor := floor_concs sample_concs floor_conc in
    Ok (volumes total_nmol sample_fracs_pass sample_concs_floor).

(** The defaults [min_conc=10, floor_conc=50, total_nmol=.01]. *)
Definition default_min_conc : F := of_Z 10.
Definition default_floor_conc : F := of_Z 50.
Definition default_total_nmol : F := fdiv (of_Z 1) (of_Z 100).
Definition default_total_vol : F := of_Z 60.

(** *** estimate_pool_conc_vol

    Arrays of equal shape; numpy's broadcasting of unequal shapes is not
    modelled, such a call is [ValueError] here. *)
Definition nl_scalar : F := fdiv (of_Z 1) (of_Z (10 ^ 9)).

Definition estimate_pool_conc_vol (sample_vols sample_concs : matrix F)
  : result (F * F) :=
  if negb (same_shape_b (shape sample_concs) (shape sample_vols))
  then Raise ValueError
  else
    let total_pmols :=
      mmap (fun x => fmul x nl_scalar) (mzip_with fmul sample_concs sample_vols) in
    let total_vol := fsum (flatten sample_vols) in
    let pool_conc := fdiv (fsum (flatten total_pmols)) (fmul total_vol nl_scalar) in
    Ok (pool_conc, total_vol).

(** *** format_pooling_echo_pick_list *)

Record pick : Type := {
  source_well : string;
  transfer_volume : string;
  destination_well : string
}.

Definition header : string :=
  "Source Plate Name,Source Plate Type,Source Well,"
  ++ "Concentration,Transfer Volume,Destination Plate Name,"
  ++ "Destination Well".

Definition pick_line (p : pick) : string :=
  join "," ["1"; "384LDV_AQ_B2_HT"; source_well p; ""; transfer_volume p;
            "NormalizedDNA"; destination_well p].

(** The loop state. *)
Record pooling_state : Type := {
  running_tot : F;
  d : Z;
  contents : list pick
}.

Definition initial_state : pooling_state :=
  {| running_tot := of_Z 0; d := 1; contents := [] |}.

(** [if running_tot + vol > max_vol_per_well: d += 1; running_tot = vol
     else: running_tot += vol], giving the new [(running_tot, d)]. *)
Definition rollover (running_tot : F) (d : Z) (vol max_vol_per_well : F) : F * Z :=
  if flt max_vol_per_well (fadd running_tot vol)
  then (vol, d + 1)
  else (fadd running_tot vol, d).

(** ["%s%d" % (chr(ord('A') + int(np.floor(d/dest_plate_shape[0]))),
               (d % dest_plate_shape[1]))]; the floor of the quotient is the
    integer quotient [d // dest_plate_shape[0]]. *)
Definition dest_label (d : Z) (dest_plate_shape : Z * Z) : result string :=
  let '(shape0, shape1) := dest_plate_shape in
  if shape0 =? 0 then Raise ZeroDivisionError
  else
    row <- chr (65 + d / shape0) ;;
    if shape1 =? 0 then Raise ZeroDivisionError
    else Ok (row ++ fmt_d (d mod shape1)).

(** The body of the inner loop at well [(i, j)]. *)
Definition visit_well (max_vol_per_well : F) (dest_plate_shape : Z * Z)
    (i j : Z) (vol : F) (st : pooling_state) : result pooling_state :=
  row <- chr (65 + i) ;;
  let well_name := row ++ fmt_d (j + 1) in
  let val := fmt_2f vol in
  let '(tot, d') := rollover (running_tot st) (d st) vol max_vol_per_well in
  dest <- dest_label d' dest_plate_shape ;;
  Ok {| running_tot := tot;
        d := d';
        contents := (contents st ++
                     [{| source_well := well_name;
                         transfer_volume := val;
                         destination_well := dest |}])%list |}.

Fixpoint visit_row (max_vol_per_well : F) (dest_plate_shape : Z * Z)
    (i j : Z) (row : list F) (st : pooling_state) : result pooling_state :=
  match row with
  | [] => Ok st
  | vol :: rest =>
      st' <- visit_well max_vol_per_well dest_plate_shape i j vol st ;;
      visit_row max_vol_per_well dest_plate_shape i (j + 1) rest st'
  end.

Fixpoint visit_rows (max_vol_per_well : F) (dest_plate_shape : Z * Z)
    (i : Z) (rows : matrix F) (st : pooling_state) : result pooling_state :=
  match rows with
  | [] => Ok st
  | row :: rest =>
      st' <- visit_row max_vol_per_well dest_plate_shape i 0 row st ;;
      visit_rows max_vol_per_well dest_plate_shape (i + 1) rest st'
  end.

Definition pick_list (vol_sample : matrix F) (max_vol_per_well : F)
    (dest_plate_shape : Z * Z) : result (list pick) :=
  st <- visit_rows max_vol_per_well dest_plate_shape 0 vol_sample initial_state ;;
  Ok (contents st).

Definition format_pooling_echo_pick_list (vol_sample : matrix F)
    (max_vol_per_well : F) (dest_plate_shape : Z * Z) : result string :=
  picks <- pick_list vol_sample max_vol_per_well dest_plate_shape ;;
  Ok (join (String (ascii_of_nat 10) "") (header :: map pick_line picks)).

Definition default_max_vol_per_well : F := of_Z 60000.
Definition default_dest_plate_shape : Z * Z := (16, 24).

End Metapool.

(** ** Definitions used by the statements *)

(** Decidable equality of extended rationals, entry by entry on matrices. *)
Definition xeqb (x y : xreal) : bool :=
  match x, y with
  | XNaN, XNaN => true
  | XInf s, XInf t => Bool.eqb s t
  | XFin p, XFin q => Qeq_bool p q
  | _, _ => false
  end.

Fixpoint all2b {A B} (p : A -> B -> bool) (l : list A) (r : list B) : bool :=
  match l, r with
  | [], [] => true
  | a :: l', b :: r' => p a b && all2b p l' r'
  | _, _ => false
  end.

Definition meqb (m n : matrix xreal) : bool := all2b (all2b xeqb) m n.

(** A finite, non-negative value. *)
Definition nonneg (x : xreal) : Prop :=
  match x with
  | XFin q => (0 <= q)%Q
  | _ => False
  end.

(** The sum of a list of rationals, from 0, first to last. *)
Definition qsum (l : list Q) : Q := fold_left Qplus l (0 # 1)%Q.

(** The arrays of the unit tests.  The test passes the concentrations as
    integers; numpy converts them to float64, without rounding, where they
    meet a float. *)
Definition test_concs {F} `{Number F} : matrix F :=
  mmap of_Z [[1; 12; 400]; [200; 40; 1]].

Definition test_vols : matrix float :=
  [[10; 10; 5; 5; 10; 10]%float].

Definition test_vols_nan : matrix float :=
  [[10; 10; PrimFloat.nan; 5; 10; 10]%float].

Definition newline : string := String (ascii_of_nat 10) "".

Definition test_picklist : string :=
  join newline
    [header;
     "1,384LDV_AQ_B2_HT,A1,,10.00,NormalizedDNA,A1";
     "1,384LDV_AQ_B2_HT,A2,,10.00,NormalizedDNA,A1";
     "1,384LDV_AQ_B2_HT,A3,,5.00,NormalizedDNA,A1";
     "1,384LDV_AQ_B2_HT,A4,,5.00,NormalizedDNA,A2";
     "1,384LDV_AQ_B2_HT,A5,,10.00,NormalizedDNA,A2";
     "1,384LDV_AQ_B2_HT,A6,,10.00,NormalizedDNA,A2"].

(** What [test_format_pooling_echo_pick_list_nan] expects. *)
Definition test_picklist_nan : string :=
  join newline
    [header;
     "1,384LDV_AQ_B2_HT,A1,,10.00,NormalizedDNA,A1";
     "1,384LDV_AQ_B2_HT,A2,,10.00,NormalizedDNA,A1";
     "1,384LDV_AQ_B2_HT,A3,,0.00,NormalizedDNA,A1";
     "1,384LDV_AQ_B2_HT,A4,,5.00,NormalizedDNA,A1";
     "1,384LDV_AQ_B2_HT,A5,,10.00,NormalizedDNA,A2";
     "1,384LDV_AQ_B2_HT,A6,,10.00,NormalizedDNA,A2"].

(** The destination wells of a pick list. *)
Definition destinations (r : result (list pick)) : result (list string) :=
  picks <- r ;; Ok (map destination_well picks).

Definition volumes_written (r : result (list pick)) : result (list string) :=
  picks <- r ;; Ok (map transfer_volume picks).

Definition sources (r : result (list pick)) : result (list string) :=
  picks <- r ;; Ok (map source_well picks).

(** With the default fractions [1/n], at a well of concentration [c]: its
    thresholded fraction, its floored concentration and, for the
    renormalisation factor [r = 1/sample_fracs_pass.sum()], the volume
    [compute_shotgun_pooling_values_qpcr] gives it. *)
Definition well_fraction {F} `{Number F} (n : nat) (min_conc c : F) : F :=
  if fle c min_conc then of_Z 0 else fdiv (of_Z 1) (of_Z (Z.of_nat n)).

Definition well_floor {F} `{Number F} (floor_conc c : F) : F :=
  if flt c floor_conc then floor_conc else c.

Definition well_volume {F} `{Number F} (n : nat) (r min_conc floor_conc total_nmol c : F)
  : F :=
  fmul (fdiv (fmul total_nmol (fmul (well_fraction n min_conc c) r))
             (well_floor floor_conc c))
       (of_Z (10 ^ 9)).

(** The same fraction as a rational. *)
Definition qfraction (n : nat) (min_conc c : xreal) : Q :=
  if xle c min_conc then inject_Z 0 else (inject_Z 1 / inject_Z (Z.of_nat n))%Q.

(** The floored concentration of a finite well, as a rational. *)
Definition qfloor (floor_conc c : Q) : Q :=
  if negb (Qle_bool floor_conc c) then floor_conc else c.

(** The sum of the thresholded default fractions, as a rational. *)
Definition qpass_sum (sample_concs : matrix xreal) (min_conc : xreal) : Q :=
  qsum (map (qfraction (size sample_concs) min_conc) (flatten sample_concs)).

(** The nanomoles pooled: the sum over the wells of volume (nL) times
    floored concentration (nM), converted back from nanoliters. *)
Definition pooled_nmol {F} `{Number F}
    (sample_vols sample_concs : matrix F) (floor_conc : F) : F :=
  fmul (fsum (flatten (mzip_with fmul sample_vols
                         (floor_concs sample_concs floor_conc))))
       nl_scalar.

(** The share of the wells that pass the threshold, [passing / size]. *)
Definition passing_share {F} `{Number F} (sample_concs : matrix F) (min_conc : F) : F :=
  fdiv (of_Z (Z.of_nat (List.length
                          (filter (fun c => negb (fle c min_conc))
                                  (flatten sample_concs)))))
       (of_Z (Z.of_nat (size sample_concs))).

(** Zero or NaN: what a product with a zero volume can be. *)
Definition zero_or_nan (x : xreal) : Prop :=
  match x with
  | XNaN => True
  | XInf _ => False
  | XFin q => (q == 0)%Q
  end.

(** The IEEE 754 rules for NaN, zero and infinity that the statements about
    NaN rest on; [fnan] is the instance's NaN.  Both instances obey them. *)
Record nan_rules {F} `{Number F} (fnan : F) : Prop := {
  nr_view : view fnan = VNaN;
  nr_add_zero : fadd (of_Z 0) (of_Z 0) = of_Z 0;
  nr_one_div_zero : view (fdiv (of_Z 1) (of_Z 0)) = VInf false;
  nr_zero_mul_inf : fmul (of_Z 0) (fdiv (of_Z 1) (of_Z 0)) = fnan;
  nr_mul_l : forall x, fmul fnan x = fnan;
  nr_mul_r : forall x, fmul x fnan = fnan;
  nr_div_l : forall x, fdiv fnan x = fnan;
  nr_div_r : forall x, fdiv x fnan = fnan;
  nr_le_l : forall x, fle fnan x = false;
  nr_lt_l : forall x, flt fnan x = false
}.

(** ** The pick list as a run over the wells

    The loop of [format_pooling_echo_pick_list] threads [(running_tot, d)]
    through the wells in visiting order.  [run] is the pair after a list of
    volumes, [indices] the destination index the loop has at each well. *)
Fixpoint run {F} `{Number F} (max_vol_per_well running_tot : F) (d : Z)
    (vols : list F) : F * Z :=
  match vols with
  | [] => (running_tot, d)
  | vol :: rest =>
      let '(tot, d') := rollover running_tot d vol max_vol_per_well in
      run max_vol_per_well tot d' rest
  end.

Fixpoint indices {F} `{Number F} (max_vol_per_well running_tot : F) (d : Z)
    (vols : list F) : list Z :=
  match vols with
  | [] => []
  | vol :: rest =>
      let '(tot, d') := rollover running_tot d vol max_vol_per_well in
      d' :: indices max_vol_per_well tot d' rest
  end.

(** The coordinates [(i, j)] of the wells in visiting order. *)
Fixpoint row_coords {A} (i j : Z) (row : list A) : list (Z * Z) :=
  match row with
  | [] => []
  | _ :: rest => (i, j) :: row_coords i (j + 1) rest
  end.

Fixpoint coords_from {A} (i : Z) (m : matrix A) : list (Z * Z) :=
  match m with
  | [] => []
  | row :: rest => (row_coords i 0 row ++ coords_from (i + 1) rest)%list
  end.

(** A pick's source well is the label of the coordinates [(i, j)]; a pick's
    destination well is the label of the index [k]. *)
Definition source_is (p : pick) (ij : Z * Z) : Prop :=
  exists row, chr (65 + fst ij) = Ok row
              /\ source_well p = row ++ fmt_d (snd ij + 1).

Definition destination_is (dest_plate_shape : Z * Z) (p : pick) (k : Z) : Prop :=
  dest_label k dest_plate_shape = Ok (destination_well p).

(** The volume sent to the destination index [k]: the sum of the volumes of
    the wells whose index is [k]. *)
Fixpoint volume_into (k : Z) (vols : list Q) (ds : list Z) : Q :=
  match vols, ds with
  | v :: vols', d' :: ds' =>
      ((if d' =? k then v else 0) + volume_into k vols' ds')%Q
  | _, _ => 0%Q
  end.

(** Consecutive indices: each one is the one before or the next. *)
Fixpoint steps_from (d : Z) (ds : list Z) : Prop :=
  match ds with
  | [] => True
  | k :: rest => (k = d \/ k = d + 1) /\ steps_from k rest
  end.

(** What the statements on a running total that is NaN rest on. *)
Record nan_sticky {F} `{Number F} (fnan : F) : Prop := {
  ns_add_l : forall x, fadd fnan x = fnan;
  ns_add_r : forall x, fadd x fnan = fnan;
  ns_lt_r : forall x, flt x fnan = false
}.

(** The state [st'] is the state [st] after the wells at the coordinates
    [cs] with the volumes [vols]: the running total and the index are those of
    [run], and one pick per well has been appended. *)
Definition extends {F} `{Number F} (max_vol_per_well : F) (dest_plate_shape : Z * Z)
    (st st' : pooling_state) (cs : list (Z * Z)) (vols : list F) : Prop :=
  running_tot st' = fst (run max_vol_per_well (running_tot st) (d st) vols)
  /\ d st' = snd (run max_vol_per_well (running_tot st) (d st) vols)
  /\ exists picks,
       contents st' = (contents st ++ picks)%list
       /\ Forall2 source_is picks cs
       /\ map transfer_volume picks = map fmt_2f vols
       /\ Forall2 (destination_is dest_plate_shape) picks
            (indices max_vol_per_well (running_tot st) (d st) vols).

(** The volume of a finite well as a rational, for the number of wells [n]
    and the sum [S] of the passing fractions. *)
Definition qvolume (n : nat) (S : Q) (min_conc : xreal)
    (floor_conc total_nmol c : Q) : Q :=
  (total_nmol * (qfraction n min_conc (XFin c) * (inject_Z 1 / S))
   / qfloor floor_conc c * inject_Z (10 ^ 9))%Q.

(** * The pick list *)

(** C4. For the one-row volumes [10,10,5,5,10,10] with [max_vol_per_well=26]
    and [dest_plate_shape=[16,24]] the pick list is the one of the unit test,
    with destination wells A1,A1,A1,A2,A2,A2.  The wells are visited row by
    row and the running total is carried from one row to the next: the same
    volumes in two rows of three give the sources A1,A2,A3,B1,B2,B3 and the
    same destinations.  At every well, of every array:
    when [running_tot + vol > max_vol_per_well] the destination index goes up
    by one and the running total restarts at this well's volume; otherwise the
    index stays and the volume is added to the running total. *)
Theorem picklist_rollover :
  format_pooling_echo_pick_list test_vols (of_Z 26) (16, 24) = Ok test_picklist
  /\ destinations (pick_list test_vols (of_Z 26) (16, 24))
     = Ok ["A1"; "A1"; "A1"; "A2"; "A2"; "A2"]
  /\ sources (pick_list [[10; 10; 5]; [5; 10; 10]]%float (of_Z 26) (16, 24))
     = Ok ["A1"; "A2"; "A3"; "B1"; "B2"; "B3"]
  /\ destinations (pick_list [[10; 10; 5]; [5; 10; 10]]%float (of_Z 26) (16, 24))
     = Ok ["A1"; "A1"; "A1"; "A2"; "A2"; "A2"]
  /\ (forall (F : Type) (N : Number F) (max_vol_per_well : F) (shp : Z * Z)
             (i j : Z) (vol : F) (st st' : pooling_state),
        visit_well max_vol_per_well shp i j vol st = Ok st' ->
        (flt max_vol_per_well (fadd (running_tot st) vol) = true ->
           d st' = d st + 1 /\ running_tot st' = vol)
        /\ (flt max_vol_per_well (fadd (running_tot st) vol) = false ->
           d st' = d st /\ running_tot st' = fadd (running_tot st) vol)).
Proof.
  split; [vm_compute; reflexivity|].
  split; [vm_compute; reflexivity|].
  split; [vm_compute; reflexivity|].
  split; [vm_compute; reflexivity|].
  intros F N mx shp i j vol st st' Hv.
  unfold visit_well, rollover in Hv.
  destruct (chr (65 + i)) as [row|e]; [simpl in Hv|discriminate].
  destruct (flt mx (fadd (running_tot st) vol)).
  - destruct (dest_label (d st + 1) shp); [simpl in Hv|discriminate].
    injection Hv as <-. split; [intros _; simpl; auto|discriminate].
  - destruct (dest_label (d st) shp); [simpl in Hv|discriminate].
    injection Hv as <-. split; [discriminate|intros _; simpl; auto].
Qed.

Lemma picklist_rollover_witness :
  exists st',
    visit_well (of_Z 26) (16, 24) 0 0 10%float initial_state = Ok st'
    /\ flt (of_Z 26) (fadd (running_tot initial_state) 10%float) = false
    /\ d st' = 1 /\ running_tot st' = 10%float.
Proof.
  assert (Hv : exists st',
             visit_well (of_Z 26) (16, 24) 0 0 10%float initial_state = Ok st')
    by (eexists; vm_compute; reflexivity).
  destruct Hv as [st' Hv]. exists st'.
  split; [exact Hv|]. split; [reflexivity|].
  destruct (proj2 (proj2 (proj2 (proj2 picklist_rollover))) _ _ _ _ _ _ _ _ _ Hv)
    as [_ Hacc].
  exact (Hacc eq_refl).
Defined.

(** C2. What the code does on the volumes [10,10,NaN,5,10,10] of
    [test_format_pooling_echo_pick_list_nan] with [max_vol_per_well=26]: the
    NaN is written as ["nan"], not ["0.00"]; it is added to the running total,
    which is NaN from there on, so that no later comparison
    [running_tot + vol > max_vol_per_well] holds and every later well goes to
    A1.  The test expects ["0.00"] and the destinations A1,A1,A1,A1,A2,A2,
    those of the same volumes with 0 for the NaN. *)
Theorem picklist_nan_actual :
  volumes_written (pick_list test_vols_nan (of_Z 26) (16, 24))
    = Ok ["10.00"; "10.00"; "nan"; "5.00"; "10.00"; "10.00"]
  /\ destinations (pick_list test_vols_nan (of_Z 26) (16, 24))
    = Ok ["A1"; "A1"; "A1"; "A1"; "A1"; "A1"]
  /\ format_pooling_echo_pick_list test_vols_nan (of_Z 26) (16, 24)
    <> Ok test_picklist_nan
  /\ format_pooling_echo_pick_list [[10; 10; 0; 5; 10; 10]%float] (of_Z 26) (16, 24)
    = Ok test_picklist_nan.
Proof.
  split; [vm_compute; reflexivity|].
  split; [vm_compute; reflexivity|].
  split; [vm_compute; intros Heq; discriminate Heq|].
  vm_compute; reflexivity.
Qed.

(** C10. The destination label of index [d] on the default 16 x 24 plate is
    the letter [chr(ord('A') + floor(d / 16))] followed by the number
    [d mod 24]; [d] starts at 1 and a rollover adds 1.  So whenever [d] is a
    multiple of 24 the label ends in column number 0: 23 wells of 10 nL with
    [max_vol_per_well=5] roll over at every well, reach [d = 24] at the last
    one and send it to ["B0"], while source wells are numbered from 1. *)
Theorem dest_label_column_zero :
  (forall d : Z,
      dest_label d default_dest_plate_shape
      = (row <- chr (65 + d / 16) ;; Ok (row ++ fmt_d (d mod 24))))
  /\ d (initial_state (F := float)) = 1
  /\ (forall (rt vol mx : float) (d : Z),
        snd (rollover rt d vol mx) = d \/ snd (rollover rt d vol mx) = d + 1)
  /\ (forall k : Z,
        0 <= k < 17 ->
        dest_label (24 * k) default_dest_plate_shape
        = Ok (byte_string (65 + (24 * k) / 16) ++ "0"))
  /\ dest_label 24 default_dest_plate_shape = Ok "B0"
  /\ destinations (pick_list [repeat 10%float 23] (of_Z 5) (16, 24))
     = Ok ["A2"; "A3"; "A4"; "A5"; "A6"; "A7"; "A8"; "A9"; "A10"; "A11";
           "A12"; "A13"; "A14"; "A15"; "B16"; "B17"; "B18"; "B19"; "B20";
           "B21"; "B22"; "B23"; "B0"].
Proof.
  split; [intros d0; reflexivity|].
  split; [reflexivity|].
  split.
  { intros rt vol mx d0. unfold rollover.
    destruct (flt mx (fadd rt vol)); simpl; auto. }
  split.
  { intros k Hk.
    assert (Hc : k = 0 \/ k = 1 \/ k = 2 \/ k = 3 \/ k = 4 \/ k = 5 \/ k = 6
                 \/ k = 7 \/ k = 8 \/ k = 9 \/ k = 10 \/ k = 11 \/ k = 12
                 \/ k = 13 \/ k = 14 \/ k = 15 \/ k = 16) by lia.
    repeat (destruct Hc as [-> | Hc]; [vm_compute; reflexivity|]).
    subst k; vm_compute; reflexivity. }
  split; vm_compute; reflexivity.
Qed.

Lemma dest_label_column_zero_witness :
  dest_label (24 * 2) default_dest_plate_shape = Ok "D0".
Proof.
  apply (proj1 (proj2 (proj2 (proj2 dest_label_column_zero))) 2). lia.
Defined.

(** * Pooling volumes from qPCR concentrations *)

(** C1. On the concentrations [[1,12,400],[200,40,1]] with the defaults
    [min_conc=10], [floor_conc=50], [total_nmol=.01] and uniform fractions the
    binary64 result is exactly [[0,50000,6250],[12500,50000,0]] nL.  Step by
    step: the wells at 1 nM (at most [min_conc]) get the fraction 0 and so
    the volume 0; the other four fractions 1/6 are renormalised to 1/4; the
    wells at 12 and 40 nM, above [min_conc] and below [floor_conc], are dosed
    at 50 nM, exactly as wells at 50 nM are.  Without rounding the result is
    the same. *)
Theorem qpcr_unit_test :
  let concs : matrix float := test_concs in
  let thresholded :=
    threshold_fracs concs (default_sample_fracs concs) default_min_conc in
  thresholded = [[0; 1 / 6; 1 / 6]; [1 / 6; 1 / 6; 0]]%float
  /\ renormalize thresholded = [[0; 0.25; 0.25]; [0.25; 0.25; 0]]%float
  /\ floor_concs concs default_floor_conc
     = [[50; 50; 400]; [200; 50; 50]]%float
  /\ compute_shotgun_pooling_values_qpcr concs None
       default_min_conc default_floor_conc default_total_nmol
     = Ok [[0; 50000; 6250]; [12500; 50000; 0]]%float
  /\ compute_shotgun_pooling_values_qpcr
       [[1; 50; 400]; [200; 50; 1]]%float None
       default_min_conc default_floor_conc default_total_nmol
     = Ok [[0; 50000; 6250]; [12500; 50000; 0]]%float
  /\ (exists vols : matrix xreal,
        compute_shotgun_pooling_values_qpcr test_concs None
          default_min_conc default_floor_conc default_total_nmol = Ok vols
        /\ meqb vols (mmap of_Z [[0; 50000; 6250]; [12500; 50000; 0]]) = true).
Proof.
  cbv zeta.
  split; [vm_compute; reflexivity|].
  split; [vm_compute; reflexivity|].
  split; [vm_compute; reflexivity|].
  split; [vm_compute; reflexivity|].
  split; [vm_compute; reflexivity|].
  eexists. split; vm_compute; reflexivity.
Qed.

(** ** Arrays: shapes, maps and zips *)

Section Arrays.

Context {A B C : Type}.

Lemma shape_mmap (f : A -> B) (m : matrix A) : shape (mmap f m) = shape m.
Proof.
  unfold shape, mmap. rewrite map_map.
  apply map_ext. intros row. apply length_map.
Qed.

Lemma same_shape_b_refl (s : list nat) : same_shape_b s s = true.
Proof.
  induction s as [|a s IH]; simpl; [reflexivity|].
  rewrite Nat.eqb_refl. exact IH.
Qed.

Lemma flatten_mmap (f : A -> B) (m : matrix A) :
  flatten (mmap f m) = map f (flatten m).
Proof.
  unfold flatten, mmap. symmetry. apply concat_map.
Qed.

Lemma zip_with_map_same {D} (g : B -> C -> D) (h : A -> B) (k : A -> C)
    (l : list A) :
  zip_with g (map h l) (map k l) = map (fun a => g (h a) (k a)) l.
Proof.
  induction l as [|a l IH]; simpl; [reflexivity|]. now rewrite IH.
Qed.

Lemma mzip_with_mmap_same {D} (g : B -> C -> D) (h : A -> B) (k : A -> C)
    (m : matrix A) :
  mzip_with g (mmap h m) (mmap k m) = mmap (fun a => g (h a) (k a)) m.
Proof.
  unfold mzip_with, mmap.
  induction m as [|row m IH]; simpl; [reflexivity|].
  now rewrite zip_with_map_same, IH.
Qed.

End Arrays.

Lemma mmap_mmap {A B C} (f : A -> B) (g : B -> C) (m : matrix A) :
  mmap g (mmap f m) = mmap (fun a => g (f a)) m.
Proof.
  unfold mmap. rewrite map_map. apply map_ext. intros row. apply map_map.
Qed.

Lemma mmap_id {A} (m : matrix A) : mmap (fun a => a) m = m.
Proof.
  unfold mmap. rewrite <- (map_id m) at 2. apply map_ext. intros row. apply map_id.
Qed.

Lemma mzip_with_mmap_r {A B C} (g : A -> B -> C) (k : A -> B) (m : matrix A) :
  mzip_with g m (mmap k m) = mmap (fun a => g a (k a)) m.
Proof.
  rewrite <- (mmap_id m) at 1. apply mzip_with_mmap_same.
Qed.

Lemma Forall_flatten {A} (P : A -> Prop) (m : matrix A) :
  Forall (Forall P) m <-> Forall P (flatten m).
Proof.
  unfold flatten. induction m as [|row m IH]; simpl.
  - split; constructor.
  - rewrite Forall_app. split.
    + intros Hm. inversion Hm; subst. split; [assumption|now apply IH].
    + intros [Hr Hm]. constructor; [assumption|now apply IH].
Qed.

Lemma Forall_mmap {A B} (P : B -> Prop) (f : A -> B) (m : matrix A) :
  Forall (Forall (fun a => P (f a))) m -> Forall (Forall P) (mmap f m).
Proof.
  intros Hm. unfold mmap. apply Forall_map.
  eapply Forall_impl; [|exact Hm]. intros row Hr. now apply Forall_map.
Qed.

(** ** The default call of compute_shotgun_pooling_values_qpcr, well by well *)

Lemma qpcr_default_wells {F} `{Number F}
    (sample_concs : matrix F) (min_conc floor_conc total_nmol : F) :
  compute_shotgun_pooling_values_qpcr sample_concs None
    min_conc floor_conc total_nmol
  = Ok (mmap (well_volume (size sample_concs)
                (fdiv (of_Z 1)
                   (fsum (map (well_fraction (size sample_concs) min_conc)
                            (flatten sample_concs))))
                min_conc floor_conc total_nmol)
          sample_concs).
Proof.
  unfold compute_shotgun_pooling_values_qpcr, default_sample_fracs.
  rewrite shape_mmap, same_shape_b_refl. simpl negb. cbv iota.
  f_equal.
  unfold volumes, renormalize, threshold_fracs, floor_concs.
  rewrite !mzip_with_mmap_r, flatten_mmap, mmap_mmap, mzip_with_mmap_same.
  reflexivity.
Qed.

(** ** Extended rationals *)

Local Open Scope Q_scope.

Lemma Qzero_true (q : Q) : Qzero q = true <-> q == 0.
Proof.
  unfold Qzero, Qeq. destruct q as [n dn]. simpl.
  rewrite Z.eqb_eq. lia.
Qed.

Lemma Qzero_false (q : Q) : Qzero q = false <-> ~ q == 0.
Proof.
  rewrite <- Qzero_true. destruct (Qzero q); split; congruence.
Qed.

Lemma Qneg_true (q : Q) : Qneg q = true <-> q < 0.
Proof.
  unfold Qneg, Qlt. destruct q as [n dn]. simpl.
  rewrite Z.ltb_lt. lia.
Qed.

Lemma Qneg_false (q : Q) : Qneg q = false <-> 0 <= q.
Proof.
  unfold Qneg, Qle. destruct q as [n dn]. simpl.
  rewrite Z.ltb_ge. lia.
Qed.

Lemma xsum_fin (qs : list Q) (a : Q) :
  fold_left xadd (map XFin qs) (XFin a) = XFin (fold_left Qplus qs a).
Proof.
  revert a. induction qs as [|q qs IH]; intros a; simpl; [reflexivity|].
  apply IH.
Qed.

Lemma fsum_fin (qs : list Q) : fsum (map XFin qs) = XFin (qsum qs).
Proof. unfold fsum, qsum. simpl. apply xsum_fin. Qed.

Lemma fold_Qplus_acc (qs : list Q) (a : Q) :
  fold_left Qplus qs a == a + qsum qs.
Proof.
  unfold qsum. revert a. induction qs as [|q qs IH]; intros a; simpl.
  - ring.
  - rewrite IH, (IH (0 + q)%Q). ring.
Qed.

Lemma qsum_cons (q : Q) (qs : list Q) : qsum (q :: qs) == q + qsum qs.
Proof.
  unfold qsum at 1. simpl. rewrite fold_Qplus_acc. ring.
Qed.

Lemma qsum_nil : qsum [] == 0.
Proof. reflexivity. Qed.

Lemma qsum_nonneg (qs : list Q) : Forall (fun q => 0 <= q) qs -> 0 <= qsum qs.
Proof.
  induction 1 as [|q qs Hq _ IH]; [apply Qle_refl|].
  rewrite qsum_cons. lra.
Qed.

Lemma qsum_zero_all (qs : list Q) :
  Forall (fun q => 0 <= q) qs -> qsum qs == 0 -> Forall (fun q => q == 0) qs.
Proof.
  induction 1 as [|q qs Hq Hqs IH]; intros Hs; [constructor|].
  rewrite qsum_cons in Hs.
  pose proof (qsum_nonneg qs Hqs) as Hn.
  constructor; [lra|]. apply IH. lra.
Qed.

Lemma qsum_scale (a : Q) (qs : list Q) :
  qsum (map (Qmult a) qs) == a * qsum qs.
Proof.
  induction qs as [|q qs IH]; simpl map.
  - rewrite qsum_nil. ring.
  - rewrite !qsum_cons, IH. ring.
Qed.

Lemma qsum_ext {A} (f g : A -> Q) (l : list A) :
  Forall (fun c => f c == g c) l -> qsum (map f l) == qsum (map g l).
Proof.
  induction 1 as [|c l Hc _ IH]; simpl map; [reflexivity|].
  now rewrite !qsum_cons, Hc, IH.
Qed.

(** ** The thresholded fractions *)

Lemma well_fraction_zero {F} `{Number F} (n : nat) (min_conc c : F) :
  fle c min_conc = true -> well_fraction n min_conc c = of_Z 0.
Proof.
  intros Hc. unfold well_fraction. now rewrite Hc.
Qed.

Lemma well_fraction_fin (n : nat) (min_conc c : xreal) :
  (0 < n)%nat -> well_fraction n min_conc c = XFin (qfraction n min_conc c).
Proof.
  intros Hn. unfold well_fraction, qfraction. simpl.
  destruct (xle c min_conc); [reflexivity|].
  assert (Hz : Qzero (inject_Z (Z.of_nat n)) = false).
  { unfold Qzero, inject_Z. simpl. apply Z.eqb_neq. lia. }
  now rewrite Hz.
Qed.

Lemma fsum_zeros {F} `{Number F} (l : list F) :
  fadd (of_Z 0) (of_Z 0) = of_Z 0 ->
  Forall (fun x => x = of_Z 0) l -> fsum l = of_Z 0.
Proof.
  intros Hzero Hl. unfold fsum.
  induction Hl as [|x l Hx _ IH]; simpl; [reflexivity|].
  subst x. now rewrite Hzero.
Qed.

Lemma threshold_default {F} `{Number F} (sample_concs : matrix F) (min_conc : F) :
  threshold_fracs sample_concs (default_sample_fracs sample_concs) min_conc
  = mmap (well_fraction (size sample_concs) min_conc) sample_concs.
Proof.
  unfold threshold_fracs, default_sample_fracs. now rewrite mzip_with_mmap_r.
Qed.

(** ** The rules for NaN hold in both instances *)

Lemma exact_nan_rules : nan_rules XNaN.
Proof.
  constructor; try reflexivity; intros x; destruct x; reflexivity.
Qed.

Lemma binary64_nan_rules : nan_rules PrimFloat.nan.
Proof.
  constructor; try reflexivity; intros x; simpl.
  - apply Prim2SF_inj. rewrite mul_spec. reflexivity.
  - apply Prim2SF_inj. rewrite mul_spec.
    change (Prim2SF PrimFloat.nan) with S754_nan.
    destruct (Prim2SF x); reflexivity.
  - apply Prim2SF_inj. rewrite div_spec. reflexivity.
  - apply Prim2SF_inj. rewrite div_spec.
    change (Prim2SF PrimFloat.nan) with S754_nan.
    destruct (Prim2SF x); reflexivity.
  - rewrite leb_spec. reflexivity.
  - rewrite ltb_spec. reflexivity.
Qed.

Lemma well_volume_nan {F} `{Number F} (fnan : F) (n : nat)
    (r min_conc floor_conc total_nmol : F) :
  nan_rules fnan ->
  well_volume n r min_conc floor_conc total_nmol fnan = fnan.
Proof.
  intros Hnan. unfold well_volume, well_floor.
  now rewrite (nr_lt_l _ Hnan), (nr_div_r _ Hnan), (nr_mul_l _ Hnan).
Qed.

(** ** Every well at or below the threshold *)

(** C3, what the code does instead: on the concentrations [[1,2,4],[2,4,1]],
    all at most [min_conc=10], the call does not raise but returns NaN in
    every well, not 0. *)
Lemma qpcr_all_below_not_zero :
  compute_shotgun_pooling_values_qpcr [[1; 2; 4]; [2; 4; 1]]%float None
    default_min_conc default_floor_conc default_total_nmol
  = Ok [[PrimFloat.nan; PrimFloat.nan; PrimFloat.nan];
        [PrimFloat.nan; PrimFloat.nan; PrimFloat.nan]]
  /\ compute_shotgun_pooling_values_qpcr [[1; 2; 4]; [2; 4; 1]]%float None
       default_min_conc default_floor_conc default_total_nmol
     <> Ok [[0; 0; 0]; [0; 0; 0]]%float.
Proof.
  split; [vm_compute; reflexivity|].
  intros Heq.
  apply (f_equal (fun r => match r with
                           | Ok ((x :: _) :: _) => PrimFloat.is_nan x
                           | _ => false
                           end)) in Heq.
  vm_compute in Heq. discriminate Heq.
Qed.

(** C3, as the code has it, on binary64 as without rounding.  If every well
    is at or below [min_conc], then with the default fractions the
    thresholded fractions sum to 0, the renormalisation factor [1/0] is [+inf]
    (numpy warns, nothing is raised), and the call returns an array of the
    input's shape whose every entry is NaN ([0 * inf]). *)
Theorem qpcr_all_below_threshold
    (F : Type) (N : Number F) (fnan : F)
    (sample_concs : matrix F) (min_conc floor_conc total_nmol : F) :
  nan_rules fnan ->
  Forall (Forall (fun c => fle c min_conc = true)) sample_concs ->
  fsum (flatten (threshold_fracs sample_concs
                   (default_sample_fracs sample_concs) min_conc)) = of_Z 0
  /\ view (fdiv (of_Z 1) (of_Z 0 : F)) = VInf false
  /\ exists sample_vols,
       compute_shotgun_pooling_values_qpcr sample_concs None
         min_conc floor_conc total_nmol = Ok sample_vols
       /\ shape sample_vols = shape sample_concs
       /\ Forall (Forall (fun v => v = fnan)) sample_vols.
Proof.
  intros Hnan Hall.
  assert (Hsum : fsum (map (well_fraction (size sample_concs) min_conc)
                         (flatten sample_concs)) = of_Z 0).
  { apply fsum_zeros; [exact (nr_add_zero _ Hnan)|]. apply Forall_map.
    apply Forall_flatten in Hall.
    eapply Forall_impl; [|exact Hall].
    intros c Hc. now apply well_fraction_zero. }
  split; [rewrite threshold_default, flatten_mmap; exact Hsum|].
  split; [exact (nr_one_div_zero _ Hnan)|].
  eexists. split; [apply qpcr_default_wells|].
  split; [apply shape_mmap|].
  apply Forall_mmap.
  eapply Forall_impl; [|exact Hall].
  intros row Hrow. eapply Forall_impl; [|exact Hrow].
  intros c Hc. unfold well_volume.
  rewrite Hsum, (well_fraction_zero _ _ _ Hc), (nr_zero_mul_inf _ Hnan).
  now rewrite (nr_mul_r _ Hnan), (nr_div_l _ Hnan), (nr_mul_l _ Hnan).
Qed.

Lemma qpcr_all_below_threshold_witness :
  (exists sample_vols,
      compute_shotgun_pooling_values_qpcr [[1; 2; 4]; [2; 4; 1]]%float None
        default_min_conc default_floor_conc default_total_nmol = Ok sample_vols
      /\ shape sample_vols = [3%nat; 3%nat]
      /\ Forall (Forall (fun v => v = PrimFloat.nan)) sample_vols)
  /\ (exists sample_vols,
        compute_shotgun_pooling_values_qpcr
          (mmap XFin [[1; 2; 4]; [2; 4; 1]]) None
          (XFin 10) (XFin 50) (XFin (1 # 100)) = Ok sample_vols
        /\ shape sample_vols = [3%nat; 3%nat]
        /\ Forall (Forall (fun v => v = XNaN)) sample_vols).
Proof.
  split.
  - apply (qpcr_all_below_threshold float binary64 PrimFloat.nan
             [[1; 2; 4]; [2; 4; 1]]%float
             default_min_conc default_floor_conc default_total_nmol).
    + exact binary64_nan_rules.
    + repeat constructor.
  - apply (qpcr_all_below_threshold xreal exact XNaN
             (mmap XFin [[1; 2; 4]; [2; 4; 1]]) (XFin 10) (XFin 50) (XFin (1 # 100))).
    + exact exact_nan_rules.
    + repeat constructor.
Defined.

(** ** At least one well above the threshold *)

Lemma xlt_not_xle (m c : xreal) : xlt m c = true -> xle c m = false.
Proof.
  destruct m as [| s | p], c as [| t | q]; simpl; try discriminate;
    try (destruct s); try (destruct t); simpl; try discriminate; auto.
  intros Hlt. now apply negb_true_iff in Hlt.
Qed.

Lemma qfraction_nonneg (n : nat) (min_conc c : xreal) :
  0 <= qfraction n min_conc c.
Proof.
  unfold qfraction. destruct (xle c min_conc); [apply Qle_refl|].
  unfold Qdiv. apply Qmult_le_0_compat; [discriminate|].
  apply Qinv_le_0_compat. unfold Qle, inject_Z. simpl. lia.
Qed.

Lemma qfraction_pos (n : nat) (min_conc c : xreal) :
  (0 < n)%nat -> xle c min_conc = false -> 0 < qfraction n min_conc c.
Proof.
  intros Hn Hc. unfold qfraction. rewrite Hc.
  unfold Qdiv. rewrite Qmult_1_l.
  apply Qinv_lt_0_compat. unfold Qlt, inject_Z. simpl. lia.
Qed.

Lemma qsum_pos (qs : list Q) :
  Forall (fun q => 0 <= q) qs -> Exists (fun q => 0 < q) qs -> 0 < qsum qs.
Proof.
  intros Hall Hex. induction Hex as [q qs Hq | q qs _ IH].
  - inversion Hall as [|? ? _ Hqs]; subst.
    rewrite qsum_cons. pose proof (qsum_nonneg qs Hqs). lra.
  - inversion Hall as [|? ? Hq Hqs]; subst.
    rewrite qsum_cons. specialize (IH Hqs). lra.
Qed.

Lemma Exists_size_pos {A} (P : A -> Prop) (m : matrix A) :
  Exists P (flatten m) -> (0 < size m)%nat.
Proof.
  unfold size. destruct (flatten m); intros Hex; [inversion Hex|simpl; lia].
Qed.

Lemma qpass_sum_pos (sample_concs : matrix xreal) (min_conc : xreal) :
  Exists (fun c => flt min_conc c = true) (flatten sample_concs) ->
  0 < qpass_sum sample_concs min_conc.
Proof.
  intros Hex. pose proof (Exists_size_pos _ _ Hex) as Hn.
  unfold qpass_sum. apply qsum_pos.
  - apply Forall_map, Forall_forall. intros c _. apply qfraction_nonneg.
  - apply Exists_map. eapply Exists_impl; [|exact Hex].
    intros c Hc. apply qfraction_pos; [exact Hn|]. now apply xlt_not_xle.
Qed.

(** The renormalisation factor is the finite [1/S], [S > 0] the sum of the
    passing fractions. *)
Lemma renorm_factor (sample_concs : matrix xreal) (min_conc : xreal) :
  (0 < size sample_concs)%nat ->
  ~ qpass_sum sample_concs min_conc == 0 ->
  fdiv (of_Z 1)
    (fsum (map (well_fraction (size sample_concs) min_conc) (flatten sample_concs)))
  = XFin (inject_Z 1 / qpass_sum sample_concs min_conc).
Proof.
  intros Hn HS.
  rewrite (map_ext _ (fun c => XFin (qfraction (size sample_concs) min_conc c))).
  2: { intros c. now apply well_fraction_fin. }
  rewrite <- (map_map _ XFin), fsum_fin. fold (qpass_sum sample_concs min_conc).
  simpl. apply Qzero_false in HS. now rewrite HS.
Qed.

Lemma qfloor_pos (floor_conc c : Q) : 0 < floor_conc -> 0 < qfloor floor_conc c.
Proof.
  intros Hf. unfold qfloor.
  destruct (Qle_bool floor_conc c) eqn:Hle; simpl; [|exact Hf].
  apply Qle_bool_iff in Hle. lra.
Qed.

Lemma well_floor_fin (floor_conc c : Q) :
  well_floor (XFin floor_conc) (XFin c) = XFin (qfloor floor_conc c).
Proof.
  unfold well_floor, qfloor. simpl. now destruct (Qle_bool floor_conc c).
Qed.

(** A well without NaN is floored to a positive finite concentration or stays
    at [+inf]. *)
Lemma well_floor_cases (floor_conc : Q) (c : xreal) :
  0 < floor_conc -> c <> XNaN ->
  well_floor (XFin floor_conc) c = XInf false
  \/ exists q, 0 < q /\ well_floor (XFin floor_conc) c = XFin q.
Proof.
  intros Hf Hc. destruct c as [| [|] | q].
  - now contradiction Hc.
  - right. exists floor_conc. split; [exact Hf|reflexivity].
  - left. reflexivity.
  - right. exists (qfloor floor_conc q).
    split; [now apply qfloor_pos|apply well_floor_fin].
Qed.

Lemma Forall2_mmap {A B} (R : A -> B -> Prop) (f : A -> B) (m : matrix A) :
  (forall a, R a (f a)) -> Forall2 (Forall2 R) m (mmap f m).
Proof.
  intros HR. unfold mmap. induction m as [|row m IH]; simpl; constructor.
  - induction row as [|a row IHr]; simpl; constructor; auto.
  - exact IH.
Qed.

Lemma Qdiv_nonneg (a b : Q) : 0 <= a -> 0 < b -> 0 <= a / b.
Proof.
  intros Ha Hb. unfold Qdiv. apply Qmult_le_0_compat; [exact Ha|].
  apply Qinv_le_0_compat. lra.
Qed.

Lemma well_volume_nonneg (n : nat) (S : Q) (min_conc : xreal)
    (floor_conc total_nmol : Q) (c : xreal) :
  (0 < n)%nat -> 0 < S -> 0 < floor_conc -> 0 <= total_nmol -> c <> XNaN ->
  nonneg (well_volume n (XFin (inject_Z 1 / S)) min_conc
            (XFin floor_conc) (XFin total_nmol) c).
Proof.
  intros Hn HS Hf Ht Hc. unfold well_volume.
  rewrite (well_fraction_fin n min_conc c Hn).
  pose proof (qfraction_nonneg n min_conc c) as Hq.
  assert (Hnum : 0 <= total_nmol * (qfraction n min_conc c * (inject_Z 1 / S))).
  { apply Qmult_le_0_compat; [exact Ht|].
    apply Qmult_le_0_compat; [exact Hq|].
    apply Qdiv_nonneg; [discriminate|exact HS]. }
  destruct (well_floor_cases floor_conc c Hf Hc) as [-> | (q & Hqpos & ->)]; simpl.
  - discriminate.
  - assert (Hz : Qzero q = false) by (apply Qzero_false; lra).
    rewrite Hz. simpl.
    apply Qmult_le_0_compat; [|discriminate].
    now apply Qdiv_nonneg.
Qed.

(** ** NaN in, NaN out; otherwise non-negative volumes *)

(** C7, what the code does instead: a NaN concentration is not at most
    [min_conc], so the well passes the threshold, it is not below
    [floor_conc] either, and its volume is [x / NaN = NaN]. *)
Lemma qpcr_nan_well_gives_nan :
  compute_shotgun_pooling_values_qpcr [[PrimFloat.nan; 100]]%float None
    default_min_conc default_floor_conc default_total_nmol
  = Ok [[PrimFloat.nan; 50000]]%float
  /\ is_nan PrimFloat.nan = true.
Proof.
  split; vm_compute; reflexivity.
Qed.

(** C7, as the code has it.  With the default fractions the call never
    raises and returns an array of the input's shape, and a well whose
    concentration is NaN gets the volume NaN (on binary64 as without
    rounding).  Without rounding: if no concentration is NaN, at least one is
    above [min_conc], [floor_conc] is finite and positive and [total_nmol]
    finite and at least 0, then every volume is finite and at least 0. *)
Theorem qpcr_nan_and_nonneg :
  (forall (F : Type) (N : Number F) (fnan : F)
          (sample_concs : matrix F) (min_conc floor_conc total_nmol : F),
      nan_rules fnan ->
      exists sample_vols,
        compute_shotgun_pooling_values_qpcr sample_concs None
          min_conc floor_conc total_nmol = Ok sample_vols
        /\ shape sample_vols = shape sample_concs
        /\ Forall2 (Forall2 (fun c v => c = fnan -> v = fnan))
             sample_concs sample_vols)
  /\ (forall (sample_concs : matrix xreal) (min_conc : xreal)
             (floor_conc total_nmol : Q),
        0 < floor_conc -> 0 <= total_nmol ->
        Forall (Forall (fun c => c <> XNaN)) sample_concs ->
        Exists (fun c => flt min_conc c = true) (flatten sample_concs) ->
        exists sample_vols,
          compute_shotgun_pooling_values_qpcr sample_concs None
            min_conc (XFin floor_conc) (XFin total_nmol) = Ok sample_vols
          /\ Forall (Forall nonneg) sample_vols).
Proof.
  split.
  - intros F N fnan concs mn fl tot Hnan.
    eexists. split; [apply qpcr_default_wells|].
    split; [apply shape_mmap|].
    apply Forall2_mmap. intros c ->. now apply well_volume_nan.
  - intros concs mn fl tot Hf Ht Hnan Hex.
    eexists. split; [apply qpcr_default_wells|].
    pose proof (Exists_size_pos _ _ Hex) as Hn.
    pose proof (qpass_sum_pos _ _ Hex) as HS.
    rewrite renorm_factor; [|exact Hn|lra].
    apply Forall_mmap.
    eapply Forall_impl; [|exact Hnan].
    intros row Hrow. eapply Forall_impl; [|exact Hrow].
    intros c Hc. now apply well_volume_nonneg.
Qed.

Lemma qpcr_nan_and_nonneg_witness :
  (exists sample_vols,
      compute_shotgun_pooling_values_qpcr [[PrimFloat.nan; 100]]%float None
        default_min_conc default_floor_conc default_total_nmol = Ok sample_vols
      /\ shape sample_vols = [2%nat]
      /\ Forall2 (Forall2 (fun c v => c = PrimFloat.nan -> v = PrimFloat.nan))
           [[PrimFloat.nan; 100]]%float sample_vols)
  /\ (exists sample_vols,
        compute_shotgun_pooling_values_qpcr
          [[XInf false; XFin 12; XFin 400]; [XFin 200; XInf true; XFin 1]] None
          (XFin 10) (XFin 50) (XFin (1 # 100)) = Ok sample_vols
        /\ Forall (Forall nonneg) sample_vols).
Proof.
  split.
  - apply (proj1 qpcr_nan_and_nonneg float binary64 PrimFloat.nan
             [[PrimFloat.nan; 100]]%float
             default_min_conc default_floor_conc default_total_nmol).
    exact binary64_nan_rules.
  - apply (proj2 qpcr_nan_and_nonneg
             [[XInf false; XFin 12; XFin 400]; [XFin 200; XInf true; XFin 1]]
             (XFin 10) 50 (1 # 100)).
    + reflexivity.
    + discriminate.
    + repeat constructor; discriminate.
    + apply Exists_cons_hd. reflexivity.
Defined.

(** ** The nanomoles pooled *)

Lemma mmap_ext {A B} (f g : A -> B) (m : matrix A) :
  (forall a, f a = g a) -> mmap f m = mmap g m.
Proof.
  intros Hfg. unfold mmap. apply map_ext. intros row. now apply map_ext.
Qed.

(** Volume times floored concentration at a finite well. *)
Lemma well_term_fin (n : nat) (S : Q) (min_conc : xreal)
    (floor_conc total_nmol c : Q) :
  (0 < n)%nat -> 0 < floor_conc ->
  fmul (well_volume n (XFin (inject_Z 1 / S)) min_conc
          (XFin floor_conc) (XFin total_nmol) (XFin c))
       (well_floor (XFin floor_conc) (XFin c))
  = XFin (total_nmol * (qfraction n min_conc (XFin c) * (inject_Z 1 / S))
          / qfloor floor_conc c * inject_Z (10 ^ 9) * qfloor floor_conc c).
Proof.
  intros Hn Hf. unfold well_volume.
  rewrite (well_fraction_fin n min_conc (XFin c) Hn), well_floor_fin.
  pose proof (qfloor_pos floor_conc c Hf) as Hq.
  assert (Hz : Qzero (qfloor floor_conc c) = false) by (apply Qzero_false; lra).
  cbn [fmul fdiv of_Z exact xmul xdiv]. rewrite Hz. reflexivity.
Qed.

(** C6, what the code does instead.  On the concentrations of the unit test
    four of six wells pass, and the nanomoles pooled are the whole
    [total_nmol = 0.01], more than 1.25 times [total_nmol * 4/6].  And with a
    well at [+inf], which passes the threshold and gets the volume 0, the sum
    is NaN ([0 * inf]). *)
Lemma qpcr_total_not_scaled :
  (compute_shotgun_pooling_values_qpcr test_concs None
     default_min_conc default_floor_conc default_total_nmol
   = Ok [[0; 50000; 6250]; [12500; 50000; 0]]%float
   /\ pooled_nmol [[0; 50000; 6250]; [12500; 50000; 0]]%float
        test_concs default_floor_conc = default_total_nmol
   /\ passing_share (F := float) test_concs default_min_conc = (4 / 6)%float
   /\ fle (pooled_nmol [[0; 50000; 6250]; [12500; 50000; 0]]%float
             test_concs default_floor_conc)
          (fmul (fmul default_total_nmol (4 / 6)%float) 1.25%float) = false)
  /\ (compute_shotgun_pooling_values_qpcr [[infinity; 100]]%float None
        default_min_conc default_floor_conc default_total_nmol
      = Ok [[0; 50000]]%float
      /\ pooled_nmol [[0; 50000]]%float [[infinity; 100]]%float default_floor_conc
         = PrimFloat.nan).
Proof.
  repeat split; vm_compute; reflexivity.
Qed.

(** C6, as the code has it.  For finite concentrations of which at least one
    is above [min_conc], with the default fractions, [floor_conc > 0] and a
    finite [total_nmol], the nanomoles pooled are, without rounding, exactly
    [total_nmol]: the renormalised fractions sum to 1, whatever share of the
    wells passes. *)
Theorem qpcr_conserves_total_nmol
    (sample_concs : matrix Q) (min_conc : xreal) (floor_conc total_nmol : Q) :
  0 < floor_conc ->
  Exists (fun c => flt min_conc (XFin c) = true) (flatten sample_concs) ->
  exists sample_vols,
    compute_shotgun_pooling_values_qpcr (mmap XFin sample_concs) None
      min_conc (XFin floor_conc) (XFin total_nmol) = Ok sample_vols
    /\ xeq (pooled_nmol sample_vols (mmap XFin sample_concs) (XFin floor_conc))
           (XFin total_nmol).
Proof.
  intros Hf Hex.
  assert (Hex' : Exists (fun c => flt min_conc c = true)
                   (flatten (mmap XFin sample_concs))).
  { rewrite flatten_mmap. now apply Exists_map. }
  pose proof (Exists_size_pos _ _ Hex') as Hn.
  pose proof (qpass_sum_pos _ _ Hex') as HS.
  eexists. split; [apply qpcr_default_wells|].
  rewrite renorm_factor; [|exact Hn|lra].
  unfold pooled_nmol, floor_concs.
  change (fun c : xreal => if flt c (XFin floor_conc) then XFin floor_conc else c)
    with (well_floor (XFin floor_conc)).
  rewrite mzip_with_mmap_same, mmap_mmap.
  rewrite (mmap_ext _ _ _ (fun c => well_term_fin _ _ min_conc _ total_nmol c Hn Hf)).
  rewrite <- (mmap_mmap _ XFin), !flatten_mmap, fsum_fin.
  unfold qpass_sum in *. rewrite flatten_mmap, map_map in *.
  set (n := size (mmap XFin sample_concs)) in *.
  set (S := qsum (map (fun x => qfraction n min_conc (XFin x)) (flatten sample_concs))) in *.
  assert (Hsum :
    qsum (map (fun c => total_nmol * (qfraction n min_conc (XFin c) * (inject_Z 1 / S))
                        / qfloor floor_conc c * inject_Z (10 ^ 9) * qfloor floor_conc c)
              (flatten sample_concs))
    == total_nmol * inject_Z (10 ^ 9)).
  { rewrite (qsum_ext _ (fun c => (total_nmol * inject_Z (10 ^ 9) / S)
                                  * qfraction n min_conc (XFin c))).
    - rewrite <- (map_map (fun c => qfraction n min_conc (XFin c))
                          (Qmult (total_nmol * inject_Z (10 ^ 9) / S))).
      rewrite qsum_scale. fold S. field. lra.
    - apply Forall_forall. intros c _.
      pose proof (qfloor_pos floor_conc c Hf) as Hq.
      field. split; lra. }
  unfold nl_scalar. simpl. rewrite Hsum.
  change (Z.pow_pos 10 9) with (10 ^ 9)%Z. change (inject_Z 1) with 1.
  assert (HK : ~ inject_Z (10 ^ 9) == 0) by (intros HK; discriminate HK).
  revert HK. generalize (inject_Z (10 ^ 9)). intros K HK.
  field. exact HK.
Qed.

Lemma qpcr_conserves_total_nmol_witness :
  exists sample_vols,
    compute_shotgun_pooling_values_qpcr
      (mmap XFin [[1; 12; 400]; [200; 40; 1]]) None
      (XFin 10) (XFin 50) (XFin (1 # 100)) = Ok sample_vols
    /\ xeq (pooled_nmol sample_vols (mmap XFin [[1; 12; 400]; [200; 40; 1]]) (XFin 50))
           (XFin (1 # 100)).
Proof.
  apply (qpcr_conserves_total_nmol [[1; 12; 400]; [200; 40; 1]] (XFin 10) 50 (1 # 100)).
  - reflexivity.
  - apply Exists_cons_tl, Exists_cons_hd. reflexivity.
Defined.

(** * The pool estimate *)

Lemma same_shape_b_eq (s t : list nat) : same_shape_b s t = true <-> s = t.
Proof.
  revert t. induction s as [|a s IH]; intros [|b t]; simpl;
    try (split; [discriminate|discriminate]); [tauto|].
  rewrite andb_true_iff, Nat.eqb_eq, IH.
  split; [intros [-> ->]; reflexivity|intros Heq; injection Heq; auto].
Qed.

Lemma zip_with_app {A B C} (f : A -> B -> C) (l1 l2 : list A) (r1 r2 : list B) :
  List.length l1 = List.length r1 ->
  zip_with f (l1 ++ l2) (r1 ++ r2) = (zip_with f l1 r1 ++ zip_with f l2 r2)%list.
Proof.
  revert r1. induction l1 as [|a l1 IH]; intros [|b r1] Hlen; simpl in *;
    try discriminate; [reflexivity|].
  rewrite IH; [reflexivity|lia].
Qed.

Lemma flatten_mzip_with {A B C} (f : A -> B -> C) (m : matrix A) (n : matrix B) :
  shape m = shape n ->
  flatten (mzip_with f m n) = zip_with f (flatten m) (flatten n).
Proof.
  unfold flatten, mzip_with, shape.
  revert n. induction m as [|row m IH]; intros [|row' n] Hs; simpl in *;
    try discriminate; [reflexivity|].
  injection Hs as Hrow Hrest.
  rewrite zip_with_app by exact Hrow. now rewrite IH.
Qed.

Lemma zip_with_map {A B C A' B'} (f : A -> B -> C) (g : A' -> A) (h : B' -> B)
    (l : list A') (r : list B') :
  zip_with f (map g l) (map h r) = zip_with (fun a b => f (g a) (h b)) l r.
Proof.
  revert r. induction l as [|a l IH]; intros [|b r]; simpl; try reflexivity.
  now rewrite IH.
Qed.

Lemma map_zip_with {A B C D} (k : C -> D) (f : A -> B -> C)
    (l : list A) (r : list B) :
  map k (zip_with f l r) = zip_with (fun a b => k (f a b)) l r.
Proof.
  revert r. induction l as [|a l IH]; intros [|b r]; simpl; try reflexivity.
  now rewrite IH.
Qed.

Lemma shape_length_flatten {A B} (m : matrix A) (n : matrix B) :
  shape m = shape n -> List.length (flatten m) = List.length (flatten n).
Proof.
  unfold shape, flatten.
  revert n. induction m as [|row m IH]; intros [|row' n] Hs; simpl in *;
    try discriminate; [reflexivity|].
  injection Hs as Hrow Hrest. rewrite !length_app, Hrow. f_equal. now apply IH.
Qed.

(** The sum of the products, scaled entry by entry. *)
Lemma qsum_zip_scaled (s : Q) (cl vl : list Q) :
  qsum (zip_with (fun c v => c * v * s) cl vl)
  == qsum (zip_with Qmult vl cl) * s.
Proof.
  revert vl. induction cl as [|c cl IH]; intros [|v vl]; simpl zip_with;
    rewrite ?qsum_nil; try ring.
  rewrite !qsum_cons, IH. ring.
Qed.

(** Scaling numerator and denominator by the same positive factor does not
    change a quotient, whether it is finite, infinite or NaN. *)
Lemma xdiv_scale (a a' b s : Q) :
  0 < s -> a' == a * s ->
  xeq (xdiv (XFin a') (XFin (b * s))) (xdiv (XFin a) (XFin b)).
Proof.
  intros Hs Ha. unfold xdiv.
  destruct (Qzero b) eqn:Hb.
  - apply Qzero_true in Hb.
    assert (Hbs : Qzero (b * s) = true) by (apply Qzero_true; rewrite Hb; ring).
    rewrite Hbs.
    destruct (Qzero a) eqn:Hza.
    + apply Qzero_true in Hza.
      assert (Hza' : Qzero a' = true) by (apply Qzero_true; rewrite Ha, Hza; ring).
      rewrite Hza'. exact I.
    + apply Qzero_false in Hza.
      assert (Hza' : Qzero a' = false).
      { apply Qzero_false. intros Hc. apply Hza. rewrite Ha in Hc.
        apply Qmult_integral in Hc. destruct Hc as [Hc|Hc]; [exact Hc|lra]. }
      rewrite Hza'. simpl.
      destruct (Qneg a) eqn:Hna.
      * apply Qneg_true in Hna. apply Qneg_true. rewrite Ha. nra.
      * apply Qneg_false in Hna. apply Qneg_false. rewrite Ha. nra.
  - apply Qzero_false in Hb.
    assert (Hbs : Qzero (b * s) = false).
    { apply Qzero_false. intros Hc. apply Qmult_integral in Hc.
      destruct Hc as [Hc|Hc]; [now apply Hb|lra]. }
    rewrite Hbs. simpl. rewrite Ha. field. split; [exact Hb|lra].
Qed.

Lemma nl_scalar_fin :
  nl_scalar (F := xreal) = XFin (inject_Z 1 / inject_Z (10 ^ 9)).
Proof. reflexivity. Qed.

Lemma nl_scalar_pos : 0 < inject_Z 1 / inject_Z (10 ^ 9).
Proof. reflexivity. Qed.

(** The estimate on finite arrays of one shape, in closed form. *)
Lemma estimate_pool_fin (sample_vols sample_concs : matrix Q) :
  shape sample_vols = shape sample_concs ->
  estimate_pool_conc_vol (mmap XFin sample_vols) (mmap XFin sample_concs)
  = Ok (xdiv (XFin (qsum (zip_with
                            (fun c v => c * v * (inject_Z 1 / inject_Z (10 ^ 9)))
                            (flatten sample_concs) (flatten sample_vols))))
             (XFin (qsum (flatten sample_vols)
                    * (inject_Z 1 / inject_Z (10 ^ 9)))),
        XFin (qsum (flatten sample_vols))).
Proof.
  intros Hshape. unfold estimate_pool_conc_vol.
  rewrite !shape_mmap.
  rewrite (proj2 (same_shape_b_eq _ _) (eq_sym Hshape)). simpl negb. cbv iota.
  rewrite !flatten_mmap, flatten_mzip_with by (now rewrite !shape_mmap).
  rewrite !flatten_mmap, zip_with_map, map_zip_with, nl_scalar_fin.
  rewrite fsum_fin.
  replace (zip_with (fun a b => fmul (fmul (XFin a) (XFin b))
                                  (XFin (inject_Z 1 / inject_Z (10 ^ 9))))
             (flatten sample_concs) (flatten sample_vols))
    with (map XFin (zip_with (fun c v => c * v * (inject_Z 1 / inject_Z (10 ^ 9)))
                      (flatten sample_concs) (flatten sample_vols)))
    by (now rewrite map_zip_with).
  rewrite fsum_fin. reflexivity.
Qed.

Lemma qsum_const_pos {A} (v : Q) (l : list A) :
  0 < v -> l <> [] -> 0 < qsum (map (fun _ => v) l).
Proof.
  intros Hv Hl. apply qsum_pos.
  - apply Forall_map, Forall_forall. intros a _. lra.
  - destruct l as [|a l]; [contradiction|]. simpl map. now apply Exists_cons_hd.
Qed.

(** C5.  On finite arrays of one shape, without rounding,
    [estimate_pool_conc_vol] returns as pool volume the sum of the volumes and
    as pool concentration the sum of volume times concentration over the sum
    of the volumes (the two factors [10**-9] cancel; with a zero sum of
    volumes both sides are the same infinity or NaN).  So for N >= 1 wells,
    all at concentration [K] and all with the same volume [v > 0], the pool
    concentration is [K], whatever N; on binary64, three wells at 400 nM and
    5000 nL each give exactly 400 nM in 15000 nL. *)
Theorem estimate_pool_weighted_average :
  (forall sample_vols sample_concs : matrix Q,
      shape sample_vols = shape sample_concs ->
      exists pool_conc,
        estimate_pool_conc_vol (mmap XFin sample_vols) (mmap XFin sample_concs)
        = Ok (pool_conc, XFin (qsum (flatten sample_vols)))
        /\ xeq pool_conc
             (fdiv (XFin (qsum (zip_with Qmult (flatten sample_vols)
                                  (flatten sample_concs))))
                   (XFin (qsum (flatten sample_vols)))))
  /\ (forall (A : Type) (plate : matrix A) (K v : Q),
        (0 < size plate)%nat -> 0 < v ->
        exists pool_conc,
          estimate_pool_conc_vol (mmap (fun _ => XFin v) plate)
                                 (mmap (fun _ => XFin K) plate)
          = Ok (pool_conc, XFin (qsum (map (fun _ => v) (flatten plate))))
          /\ xeq pool_conc (XFin K))
  /\ estimate_pool_conc_vol [[5000; 5000; 5000]]%float [[400; 400; 400]]%float
     = Ok (400, 15000)%float.
Proof.
  assert (Havg : forall sample_vols sample_concs : matrix Q,
      shape sample_vols = shape sample_concs ->
      exists pool_conc,
        estimate_pool_conc_vol (mmap XFin sample_vols) (mmap XFin sample_concs)
        = Ok (pool_conc, XFin (qsum (flatten sample_vols)))
        /\ xeq pool_conc
             (fdiv (XFin (qsum (zip_with Qmult (flatten sample_vols)
                                  (flatten sample_concs))))
                   (XFin (qsum (flatten sample_vols))))).
  { intros vq cq Hshape. eexists.
    split; [now apply estimate_pool_fin|].
    apply xdiv_scale; [exact nl_scalar_pos|apply qsum_zip_scaled]. }
  split; [exact Havg|].
  split; [|vm_compute; reflexivity].
  intros A plate K v Hn Hv.
  destruct (Havg (mmap (fun _ => v) plate) (mmap (fun _ => K) plate))
    as (pc & Hok & Hpc).
  { now rewrite !shape_mmap. }
  rewrite !mmap_mmap, flatten_mmap in Hok.
  exists pc. split; [exact Hok|].
  rewrite !flatten_mmap, zip_with_map_same in Hpc.
  assert (Hpos : 0 < qsum (map (fun _ : A => v) (flatten plate))).
  { apply qsum_const_pos; [exact Hv|].
    unfold size in Hn. destruct (flatten plate); [simpl in Hn; lia|discriminate]. }
  assert (Hnum : qsum (map (fun _ : A => v * K) (flatten plate))
                 == K * qsum (map (fun _ : A => v) (flatten plate))).
  { rewrite <- qsum_scale, map_map. apply qsum_ext, Forall_forall.
    intros a _. ring. }
  simpl in Hpc.
  assert (Hz : Qzero (qsum (map (fun _ : A => v) (flatten plate))) = false)
    by (apply Qzero_false; lra).
  rewrite Hz in Hpc.
  destruct pc as [| s | p]; simpl in Hpc; try contradiction.
  simpl. rewrite Hpc, Hnum. field. lra.
Qed.

Lemma estimate_pool_weighted_average_witness :
  (exists pool_conc,
      estimate_pool_conc_vol (mmap XFin [[5000; 2500]; [0; 2500]])
                             (mmap XFin [[400; 100]; [7; 300]])
      = Ok (pool_conc, XFin (qsum [5000; 2500; 0; 2500]))
      /\ xeq pool_conc
           (fdiv (XFin (qsum (zip_with Qmult [5000; 2500; 0; 2500] [400; 100; 7; 300])))
                 (XFin (qsum [5000; 2500; 0; 2500]))))
  /\ (exists pool_conc,
        estimate_pool_conc_vol (mmap (fun _ => XFin 5000) [[tt; tt; tt]])
                               (mmap (fun _ => XFin 400) [[tt; tt; tt]])
        = Ok (pool_conc, XFin (qsum [5000; 5000; 5000]))
        /\ xeq pool_conc (XFin 400)).
Proof.
  split.
  - apply (proj1 estimate_pool_weighted_average
             [[5000; 2500]; [0; 2500]] [[400; 100]; [7; 300]]).
    reflexivity.
  - apply (proj1 (proj2 estimate_pool_weighted_average)
             unit [[tt; tt; tt]] 400 5000).
    + unfold size, flatten. simpl. lia.
    + reflexivity.
Defined.

(** ** A pool without volume *)

Lemma zero_or_nan_sum (l : list xreal) (acc : xreal) :
  zero_or_nan acc -> Forall zero_or_nan l -> zero_or_nan (fold_left xadd l acc).
Proof.
  intros Hacc Hl. revert acc Hacc.
  induction Hl as [|x l Hx _ IH]; intros acc Hacc; simpl; [exact Hacc|].
  apply IH. destruct acc as [| s | p], x as [| t | q]; simpl in *;
    try contradiction; auto.
  rewrite Hacc, Hx. reflexivity.
Qed.

Lemma zero_or_nan_term (c : xreal) (v s : Q) :
  v == 0 -> zero_or_nan (xmul (xmul c (XFin v)) (XFin s)).
Proof.
  intros Hv. destruct c as [| t | p]; simpl.
  - exact I.
  - apply Qzero_true in Hv. rewrite Hv. exact I.
  - rewrite Hv. ring.
Qed.

Lemma Forall_zip_with_r {A B C} (P : C -> Prop) (Q' : B -> Prop) (f : A -> B -> C)
    (l : list A) (r : list B) :
  (forall a b, Q' b -> P (f a b)) -> Forall Q' r -> Forall P (zip_with f l r).
Proof.
  intros Hf Hr. revert l.
  induction Hr as [|b r Hb _ IH]; intros [|a l]; simpl; constructor; auto.
Qed.

Lemma xdiv_zero_or_nan (x : xreal) (b : Q) :
  zero_or_nan x -> b == 0 -> xdiv x (XFin b) = XNaN.
Proof.
  intros Hx Hb. apply Qzero_true in Hb.
  destruct x as [| s | p]; simpl in *; [reflexivity|contradiction|].
  apply Qzero_true in Hx. now rewrite Hb, Hx.
Qed.

(** The rational behind a finite value. *)
Lemma nonneg_matrix_fin (m : matrix xreal) :
  Forall (Forall nonneg) m ->
  exists mq : matrix Q,
    m = mmap XFin mq /\ Forall (Forall (fun v => 0 <= v)) mq.
Proof.
  induction 1 as [|row m Hrow _ (mq & -> & Hmq)].
  - exists []. split; [reflexivity|constructor].
  - assert (Hr : exists rq, row = map XFin rq /\ Forall (fun v => 0 <= v) rq).
    { induction Hrow as [|x row Hx _ (rq & -> & Hrq)].
      - exists []. split; [reflexivity|constructor].
      - destruct x as [| s | q]; simpl in Hx; try contradiction.
        exists (q :: rq). split; [reflexivity|now constructor]. }
    destruct Hr as (rq & -> & Hrq).
    exists (rq :: mq). split; [reflexivity|now constructor].
Qed.

(** C8.  If the volumes are finite and non-negative, as the entries of a
    volume array are, and their sum is 0, then for concentrations of any kind
    (NaN and infinities too) [estimate_pool_conc_vol] does not raise: the pool
    volume returned is 0 and the pool concentration is [0/0 = NaN] (numpy
    warns), not 0.  On binary64, two wells of volume 0 at 2 and 1 nM give
    [(nan, 0)]. *)
Theorem estimate_pool_zero_volume :
  (forall sample_vols sample_concs : matrix xreal,
      shape sample_vols = shape sample_concs ->
      Forall (Forall nonneg) sample_vols ->
      xeq (fsum (flatten sample_vols)) (XFin 0) ->
      exists pool_vol,
        estimate_pool_conc_vol sample_vols sample_concs = Ok (XNaN, pool_vol)
        /\ xeq pool_vol (XFin 0))
  /\ estimate_pool_conc_vol [[0; 0]]%float [[2; 1]]%float
     = Ok (PrimFloat.nan, 0%float).
Proof.
  split; [|vm_compute; reflexivity].
  intros vols sample_concs Hshape Hnonneg Hsum.
  destruct (nonneg_matrix_fin vols Hnonneg) as (sample_vols & -> & Hpos).
  rewrite shape_mmap in Hshape.
  rewrite flatten_mmap, fsum_fin in Hsum. simpl in Hsum.
  pose proof (qsum_zero_all _ (proj1 (Forall_flatten _ _) Hpos) Hsum) as Hzero.
  unfold estimate_pool_conc_vol.
  rewrite shape_mmap, (proj2 (same_shape_b_eq _ _) (eq_sym Hshape)).
  simpl negb. cbv iota.
  rewrite !flatten_mmap, fsum_fin, nl_scalar_fin.
  rewrite flatten_mzip_with by (now rewrite shape_mmap).
  rewrite flatten_mmap, map_zip_with.
  match goal with
  | |- context [fdiv ?a (fmul (XFin ?b) (XFin ?c))] =>
      change (fdiv a (fmul (XFin b) (XFin c))) with (xdiv a (XFin (b * c)))
  end.
  rewrite xdiv_zero_or_nan; [| |rewrite Hsum; ring].
  { eexists. split; [reflexivity|exact Hsum]. }
  apply zero_or_nan_sum; [reflexivity|].
  apply Forall_zip_with_r with (Q' := fun x => exists v, x = XFin v /\ v == 0).
  - intros c x (v & -> & Hv). now apply zero_or_nan_term.
  - apply Forall_map. eapply Forall_impl; [|exact Hzero].
    intros v Hv. now exists v.
Qed.

Lemma estimate_pool_zero_volume_witness :
  exists pool_vol,
    estimate_pool_conc_vol [[XFin 0; XFin 0]; [XFin 0; XFin 0]]
      [[XFin 400; XNaN]; [XInf false; XFin 7]]
    = Ok (XNaN, pool_vol)
    /\ xeq pool_vol (XFin 0).
Proof.
  apply (proj1 estimate_pool_zero_volume
           [[XFin 0; XFin 0]; [XFin 0; XFin 0]]
           [[XFin 400; XNaN]; [XInf false; XFin 7]]).
  - reflexivity.
  - repeat constructor; discriminate.
  - reflexivity.
Defined.

(** * Equal volumes *)

Lemma mmap_const_shape {A B C} (k : C) (m : matrix A) (n : matrix B) :
  shape m = shape n -> mmap (fun _ => k) m = mmap (fun _ => k) n.
Proof.
  unfold shape, mmap.
  revert n. induction m as [|row m IH]; intros [|row' n] Hs; simpl in *;
    try discriminate; [reflexivity|].
  injection Hs as Hrow Hrest. f_equal; [|now apply IH].
  clear -Hrow. revert row' Hrow.
  induction row as [|a row IHr]; intros [|b row'] Hlen; simpl in *;
    try discriminate; [reflexivity|].
  f_equal. apply IHr. lia.
Qed.

(** C9, what the code does instead: the volumes are in nanoliters for a
    [total_vol] in microliters.  For the six wells of the unit test and the
    default [total_vol=60] every entry is 10000, not [60/6 = 10]. *)
Lemma eqvol_not_plain_quotient :
  compute_shotgun_pooling_values_eqvol (F := float) test_concs default_total_vol
  = Ok [[10000; 10000; 10000]; [10000; 10000; 10000]]%float
  /\ (60 / 6 = 10)%float
  /\ PrimFloat.eqb 10000 (60 / 6) = false.
Proof.
  repeat split; vm_compute; reflexivity.
Qed.

(** C9, as the code has it.  For an array of N >= 1 wells and a target volume
    V (in uL) [compute_shotgun_pooling_values_eqvol] returns an array of the
    same shape whose every entry is [V/N * 1000] (in nL), computed as
    [0 + (V/N) * 1000.0]; without rounding that is exactly [V/N * 1000].  Two
    arrays of one shape give the same result for the same V, whatever their
    entries: twelve NaN give, as the twelve concentrations of the unit test
    do, 5000 in every well for V = 60. *)
Theorem eqvol_equal_volumes :
  (forall (F : Type) (N : Number F) (sample_concs : matrix F) (total_vol : F),
      (0 < size sample_concs)%nat ->
      compute_shotgun_pooling_values_eqvol sample_concs total_vol
      = Ok (mmap (fun _ => fadd (of_Z 0)
                             (fmul (fdiv total_vol
                                      (of_Z (Z.of_nat (size sample_concs))))
                                   (of_Z 1000)))
                 sample_concs))
  /\ (forall (F : Type) (N : Number F) (concs1 concs2 : matrix F) (total_vol : F),
        shape concs1 = shape concs2 ->
        compute_shotgun_pooling_values_eqvol concs1 total_vol
        = compute_shotgun_pooling_values_eqvol concs2 total_vol)
  /\ (forall (sample_concs : matrix xreal) (total_vol : Q),
        (0 < size sample_concs)%nat ->
        exists sample_vols,
          compute_shotgun_pooling_values_eqvol sample_concs (XFin total_vol)
          = Ok sample_vols
          /\ shape sample_vols = shape sample_concs
          /\ Forall (Forall (fun v =>
               xeq v (XFin (total_vol / inject_Z (Z.of_nat (size sample_concs))
                            * 1000))))
               sample_vols)
  /\ compute_shotgun_pooling_values_eqvol
       (mmap (fun _ : unit => PrimFloat.nan) [[tt; tt; tt; tt]; [tt; tt; tt; tt];
                                               [tt; tt; tt; tt]])
       default_total_vol
     = Ok (mmap (fun _ : unit => 5000%float) [[tt; tt; tt; tt]; [tt; tt; tt; tt];
                                               [tt; tt; tt; tt]]).
Proof.
  assert (Hwell : forall (F : Type) (N : Number F) (sample_concs : matrix F)
                         (total_vol : F),
      (0 < size sample_concs)%nat ->
      compute_shotgun_pooling_values_eqvol sample_concs total_vol
      = Ok (mmap (fun _ => fadd (of_Z 0)
                             (fmul (fdiv total_vol
                                      (of_Z (Z.of_nat (size sample_concs))))
                                   (of_Z 1000)))
                 sample_concs)).
  { intros F N concs V Hn. unfold compute_shotgun_pooling_values_eqvol.
    destruct (Nat.eqb_spec (size concs) 0) as [Hz|_]; [lia|reflexivity]. }
  split; [exact Hwell|].
  split.
  { intros F N c1 c2 V Hshape. unfold compute_shotgun_pooling_values_eqvol.
    assert (Hsize : size c1 = size c2) by (now apply shape_length_flatten).
    rewrite Hsize. destruct (Nat.eqb (size c2) 0); [reflexivity|].
    f_equal. now apply mmap_const_shape. }
  split; [|vm_compute; reflexivity].
  intros concs V Hn. eexists.
  split; [now apply Hwell|].
  split; [apply shape_mmap|].
  apply Forall_mmap, Forall_forall. intros row _. apply Forall_forall. intros c _.
  assert (Hz : Qzero (inject_Z (Z.of_nat (size concs))) = false).
  { unfold Qzero, inject_Z. simpl. apply Z.eqb_neq. lia. }
  cbn [fadd fmul fdiv of_Z exact xadd xmul xdiv]. rewrite Hz.
  cbn [xadd xmul xeq]. change (inject_Z 1000) with 1000. change (inject_Z 0) with 0.
  ring.
Qed.

Lemma eqvol_equal_volumes_witness :
  compute_shotgun_pooling_values_eqvol (F := float) test_concs default_total_vol
  = Ok (mmap (fun _ => fadd (of_Z 0) (fmul (fdiv default_total_vol (of_Z 6)) (of_Z 1000)))
          test_concs)
  /\ compute_shotgun_pooling_values_eqvol (F := float) test_concs default_total_vol
     = compute_shotgun_pooling_values_eqvol [[0; 0; 0]; [0; 0; 0]]%float
         default_total_vol.
Proof.
  split.
  - apply (proj1 eqvol_equal_volumes float binary64 test_concs default_total_vol).
    unfold size, flatten. simpl. lia.
  - apply (proj1 (proj2 eqvol_equal_volumes) float binary64).
    reflexivity.
Defined.

(** * More on the pick list *)

Local Open Scope Z_scope.

Lemma chr_ok (n : Z) : 0 <= n <= 1114111 -> exists s, chr n = Ok s.
Proof.
  intros Hn. unfold chr.
  destruct (n <? 0) eqn:H0; [apply Z.ltb_lt in H0; lia|].
  destruct (1114111 <? n) eqn:H1; [apply Z.ltb_lt in H1; lia|].
  simpl.
  destruct (n <? 128); [eexists; reflexivity|].
  destruct (n <? 2048); [eexists; reflexivity|].
  destruct (n <? 65536); eexists; reflexivity.
Qed.

Lemma rollover_d {F} `{Number F} (rt vol mx : F) (k : Z) :
  snd (rollover rt k vol mx) = k \/ snd (rollover rt k vol mx) = k + 1.
Proof.
  unfold rollover. destruct (flt mx (fadd rt vol)); simpl; auto.
Qed.

Lemma run_app {F} `{Number F} (mx rt : F) (k : Z) (l1 l2 : list F) :
  run mx rt k (l1 ++ l2)
  = run mx (fst (run mx rt k l1)) (snd (run mx rt k l1)) l2.
Proof.
  revert rt k. induction l1 as [|v l1 IH]; intros rt k; simpl; [reflexivity|].
  destruct (rollover rt k v mx) as [tot k']. apply IH.
Qed.

Lemma indices_app {F} `{Number F} (mx rt : F) (k : Z) (l1 l2 : list F) :
  indices mx rt k (l1 ++ l2)
  = (indices mx rt k l1
     ++ indices mx (fst (run mx rt k l1)) (snd (run mx rt k l1)) l2)%list.
Proof.
  revert rt k. induction l1 as [|v l1 IH]; intros rt k; simpl; [reflexivity|].
  destruct (rollover rt k v mx) as [tot k']. now rewrite IH.
Qed.

Lemma indices_length {F} `{Number F} (mx rt : F) (k : Z) (l : list F) :
  List.length (indices mx rt k l) = List.length l.
Proof.
  revert rt k. induction l as [|v l IH]; intros rt k; simpl; [reflexivity|].
  destruct (rollover rt k v mx) as [tot k']. simpl. now rewrite IH.
Qed.

Lemma run_d_bounds {F} `{Number F} (mx rt : F) (k : Z) (l : list F) :
  k <= snd (run mx rt k l) <= k + Z.of_nat (List.length l).
Proof.
  revert rt k. induction l as [|v l IH]; intros rt k; simpl run; [simpl; lia|].
  pose proof (rollover_d rt v mx k) as Hd.
  destruct (rollover rt k v mx) as [tot k']. simpl in Hd.
  specialize (IH tot k'). simpl List.length. lia.
Qed.

Lemma indices_steps {F} `{Number F} (mx rt : F) (k : Z) (l : list F) :
  steps_from k (indices mx rt k l).
Proof.
  revert rt k. induction l as [|v l IH]; intros rt k; simpl; [exact I|].
  pose proof (rollover_d rt v mx k) as Hd.
  destruct (rollover rt k v mx) as [tot k']. simpl in *.
  split; [exact Hd|apply IH].
Qed.

Lemma indices_bounds {F} `{Number F} (mx rt : F) (k : Z) (l : list F) :
  Forall (fun k' => k <= k' <= k + Z.of_nat (List.length l)) (indices mx rt k l).
Proof.
  revert rt k. induction l as [|v l IH]; intros rt k; simpl indices; [constructor|].
  pose proof (rollover_d rt v mx k) as Hd.
  destruct (rollover rt k v mx) as [tot k']. simpl in Hd.
  constructor; [simpl List.length; lia|].
  eapply Forall_impl; [|apply IH]. intros k'' Hk. simpl in *. lia.
Qed.

Lemma dest_label_ok (k s0 s1 : Z) :
  0 < s0 -> s1 <> 0 -> 0 <= k -> k + 65 <= 1114111 ->
  exists s, dest_label k (s0, s1) = Ok s.
Proof.
  intros H0 H1 Hk Hb. unfold dest_label.
  destruct (s0 =? 0) eqn:E0; [apply Z.eqb_eq in E0; lia|].
  assert (Hq : 0 <= k / s0 <= k).
  { split; [apply Z.div_pos; lia|].
    apply Z.div_le_upper_bound; [lia|nia]. }
  destruct (chr_ok (65 + k / s0)) as [row Hrow]; [lia|].
  rewrite Hrow. simpl.
  destruct (s1 =? 0) eqn:E1; [apply Z.eqb_eq in E1; lia|].
  eexists; reflexivity.
Qed.

Lemma extends_refl {F} `{Number F} (mx : F) (shp : Z * Z) (st : pooling_state) :
  extends mx shp st st [] [].
Proof.
  repeat split. exists []. rewrite app_nil_r. repeat split; constructor.
Qed.

Lemma extends_trans {F} `{Number F} (mx : F) (shp : Z * Z)
    (st1 st2 st3 : pooling_state) (cs1 cs2 : list (Z * Z)) (l1 l2 : list F) :
  extends mx shp st1 st2 cs1 l1 -> extends mx shp st2 st3 cs2 l2 ->
  extends mx shp st1 st3 (cs1 ++ cs2) (l1 ++ l2).
Proof.
  intros (Ht1 & Hd1 & p1 & Hc1 & Hs1 & Hv1 & Hi1)
         (Ht2 & Hd2 & p2 & Hc2 & Hs2 & Hv2 & Hi2).
  rewrite Ht1, Hd1 in Ht2, Hd2, Hi2.
  split; [now rewrite run_app|].
  split; [now rewrite run_app|].
  exists (p1 ++ p2)%list.
  split; [now rewrite Hc2, Hc1, app_assoc|].
  split; [now apply Forall2_app|].
  split; [now rewrite !map_app, Hv1, Hv2|].
  rewrite indices_app. now apply Forall2_app.
Qed.

Lemma visit_well_extends {F} `{Number F} (mx : F) (s0 s1 i j : Z) (vol : F)
    (st : pooling_state) :
  0 < s0 -> s1 <> 0 -> 0 <= i -> i + 65 <= 1114111 ->
  1 <= d st -> d st + 66 <= 1114111 ->
  exists st', visit_well mx (s0, s1) i j vol st = Ok st'
              /\ extends mx (s0, s1) st st' [(i, j)] [vol].
Proof.
  intros H0 H1 Hi Hib Hd Hdb. unfold visit_well.
  destruct (chr_ok (65 + i)) as [row Hrow]; [lia|].
  rewrite Hrow. cbn [bind].
  pose proof (rollover_d (running_tot st) vol mx (d st)) as Hstep.
  unfold extends. cbn [run indices].
  destruct (rollover (running_tot st) (d st) vol mx) as [tot k]. simpl in Hstep.
  destruct (dest_label_ok k s0 s1) as [dst Hdst]; try lia.
  cbv beta iota zeta. rewrite Hdst. cbn [bind].
  eexists. split; [reflexivity|]. simpl.
  split; [reflexivity|]. split; [reflexivity|].
  eexists. split; [reflexivity|].
  split.
  { constructor; [|constructor]. exists row. simpl. auto. }
  split; [reflexivity|].
  constructor; [|constructor]. exact Hdst.
Qed.

Lemma visit_row_extends {F} `{Number F} (mx : F) (s0 s1 i : Z) (row : list F) :
  0 < s0 -> s1 <> 0 -> 0 <= i -> i + 65 <= 1114111 ->
  forall (j : Z) (st : pooling_state),
    1 <= d st -> d st + Z.of_nat (List.length row) + 65 <= 1114111 ->
    exists st', visit_row mx (s0, s1) i j row st = Ok st'
                /\ extends mx (s0, s1) st st' (row_coords i j row) row.
Proof.
  intros H0 H1 Hi Hib.
  induction row as [|vol row IH]; intros j st Hd Hdb; simpl.
  - exists st. split; [reflexivity|apply extends_refl].
  - simpl List.length in Hdb.
    destruct (visit_well_extends mx s0 s1 i j vol st) as (st1 & Hv & He);
      try lia.
    rewrite Hv. cbn [bind].
    assert (Hd1 : d st <= d st1 <= d st + 1).
    { destruct He as (_ & -> & _). simpl.
      pose proof (rollover_d (running_tot st) vol mx (d st)) as Hs.
      destruct (rollover (running_tot st) (d st) vol mx); simpl in *. lia. }
    destruct (IH (j + 1) st1) as (st2 & Hr & He2); try lia.
    exists st2. split; [exact Hr|].
    apply (extends_trans mx (s0, s1) st st1 st2 [(i, j)] _ [vol] row He He2).
Qed.

Lemma extends_d {F} `{Number F} (mx : F) (shp : Z * Z) (st st' : pooling_state)
    (cs : list (Z * Z)) (l : list F) :
  extends mx shp st st' cs l ->
  d st <= d st' <= d st + Z.of_nat (List.length l).
Proof.
  intros (_ & -> & _). apply run_d_bounds.
Qed.

Lemma visit_rows_extends {F} `{Number F} (mx : F) (s0 s1 : Z) (rows : matrix F) :
  0 < s0 -> s1 <> 0 ->
  forall (i : Z) (st : pooling_state),
    0 <= i -> i + Z.of_nat (List.length rows) + 65 <= 1114111 ->
    1 <= d st -> d st + Z.of_nat (size rows) + 65 <= 1114111 ->
    exists st', visit_rows mx (s0, s1) i rows st = Ok st'
                /\ extends mx (s0, s1) st st' (coords_from i rows) (flatten rows).
Proof.
  intros H0 H1.
  induction rows as [|row rows IH]; intros i st Hi Hib Hd Hdb; simpl.
  - exists st. split; [reflexivity|apply extends_refl].
  - unfold size, flatten in Hdb. simpl in Hdb. rewrite length_app in Hdb.
    simpl List.length in Hib.
    destruct (visit_row_extends mx s0 s1 i row H0 H1) with (j := 0) (st := st)
      as (st1 & Hv & He); try lia.
    rewrite Hv. cbn [bind].
    pose proof (extends_d _ _ _ _ _ _ He) as Hd1.
    destruct (IH (i + 1) st1) as (st2 & Hr & He2); try lia.
    { unfold size, flatten. lia. }
    exists st2. split; [exact Hr|].
    exact (extends_trans mx (s0, s1) st st1 st2 _ _ row (List.concat rows) He He2).
Qed.

(** The pick list of an array that fits the code points of [chr]: it exists,
    and its picks are those of the run over the flattened array. *)
Lemma pick_list_run {F} `{Number F} (vol_sample : matrix F) (mx : F) (s0 s1 : Z) :
  0 < s0 -> s1 <> 0 ->
  Z.of_nat (List.length vol_sample) <= 1000000 ->
  Z.of_nat (size vol_sample) <= 1000000 ->
  exists picks,
    pick_list vol_sample mx (s0, s1) = Ok picks
    /\ Forall2 source_is picks (coords_from 0 vol_sample)
    /\ map transfer_volume picks = map fmt_2f (flatten vol_sample)
    /\ Forall2 (destination_is (s0, s1)) picks
         (indices mx (of_Z 0) 1 (flatten vol_sample)).
Proof.
  intros H0 H1 Hrows Hsize. unfold pick_list.
  assert (Hi : 0 + Z.of_nat (List.length vol_sample) + 65 <= 1114111) by lia.
  assert (Hd : d (initial_state (F := F)) + Z.of_nat (size vol_sample) + 65
               <= 1114111) by (unfold initial_state; cbn [d]; lia).
  destruct (visit_rows_extends mx s0 s1 vol_sample H0 H1 0 initial_state
              (Z.le_refl 0) Hi (Z.le_refl 1) Hd)
    as (st & Hv & _ & _ & picks & Hc & Hs & Ht & Hds).
  rewrite Hv. cbn [bind]. simpl in Hc, Hds.
  exists (contents st). rewrite Hc. auto.
Qed.

(** X1. One pick per well, in row-major order.  For an array of at most
    10^6 rows and 10^6 wells and a destination plate whose first dimension is
    positive and whose second is not 0, the pick list never raises; it has as
    many picks as the array has wells; the pick of the well in row [i] and
    column [j] names the source [chr(ord('A') + i)] followed by [j + 1]; and
    its volume field is ["%.2f"] of the well's volume. *)
Theorem pick_list_one_pick_per_well
    (F : Type) (N : Number F) (vol_sample : matrix F) (max_vol_per_well : F)
    (s0 s1 : Z) :
  0 < s0 -> s1 <> 0 ->
  Z.of_nat (List.length vol_sample) <= 1000000 ->
  Z.of_nat (size vol_sample) <= 1000000 ->
  exists picks,
    pick_list vol_sample max_vol_per_well (s0, s1) = Ok picks
    /\ List.length picks = size vol_sample
    /\ Forall2 source_is picks (coords_from 0 vol_sample)
    /\ map transfer_volume picks = map fmt_2f (flatten vol_sample).
Proof.
  intros H0 H1 Hrows Hsize.
  destruct (pick_list_run vol_sample max_vol_per_well s0 s1 H0 H1 Hrows Hsize)
    as (picks & Hok & Hsrc & Hvol & _).
  exists picks. repeat split; try assumption.
  apply (f_equal (@List.length string)) in Hvol.
  rewrite !length_map in Hvol. exact Hvol.
Qed.

Lemma pick_list_one_pick_per_well_witness :
  exists picks,
    pick_list [[10; 10; 5]; [5; 10; 10]]%float (of_Z 26) (16, 24) = Ok picks
    /\ List.length picks = 6%nat
    /\ Forall2 source_is picks [(0, 0); (0, 1); (0, 2); (1, 0); (1, 1); (1, 2)]
    /\ map transfer_volume picks
       = map fmt_2f [10; 10; 5; 5; 10; 10]%float.
Proof.
  apply (pick_list_one_pick_per_well float binary64
           [[10; 10; 5]; [5; 10; 10]]%float (of_Z 26) 16 24).
  - reflexivity.
  - discriminate.
  - simpl. lia.
  - unfold size, flatten. simpl. lia.
Defined.

(** X2. The destination index starts at 1, never goes down and goes up by at
    most one from a well to the next: the destination wells of the pick list
    are the labels of indices [ds] that begin at 1 or 2, each the one before
    or its successor, all between 1 and 1 + the number of wells. *)
Theorem pick_list_destinations_step
    (F : Type) (N : Number F) (vol_sample : matrix F) (max_vol_per_well : F)
    (s0 s1 : Z) :
  0 < s0 -> s1 <> 0 ->
  Z.of_nat (List.length vol_sample) <= 1000000 ->
  Z.of_nat (size vol_sample) <= 1000000 ->
  exists picks ds,
    pick_list vol_sample max_vol_per_well (s0, s1) = Ok picks
    /\ Forall2 (destination_is (s0, s1)) picks ds
    /\ steps_from 1 ds
    /\ Forall (fun k => 1 <= k <= 1 + Z.of_nat (size vol_sample)) ds.
Proof.
  intros H0 H1 Hrows Hsize.
  destruct (pick_list_run vol_sample max_vol_per_well s0 s1 H0 H1 Hrows Hsize)
    as (picks & Hok & _ & _ & Hds).
  exists picks. eexists. split; [exact Hok|]. split; [exact Hds|].
  split; [apply indices_steps|apply indices_bounds].
Qed.

Lemma pick_list_destinations_step_witness :
  exists picks ds,
    pick_list [[10; 10; 5]; [5; 10; 10]]%float (of_Z 26) (16, 24) = Ok picks
    /\ Forall2 (destination_is (16, 24)) picks ds
    /\ steps_from 1 ds
    /\ Forall (fun k => 1 <= k <= 1 + 6) ds.
Proof.
  apply (pick_list_destinations_step float binary64
           [[10; 10; 5]; [5; 10; 10]]%float (of_Z 26) 16 24).
  - reflexivity.
  - discriminate.
  - simpl. lia.
  - unfold size, flatten. simpl. lia.
Defined.

(** ** Capacity, without rounding *)

Lemma rollover_fin (rt v mx : Q) (k : Z) :
  rollover (XFin rt) k (XFin v) (XFin mx)
  = if Qle_bool (rt + v) mx then (XFin (rt + v), k) else (XFin v, k + 1).
Proof.
  unfold rollover. simpl. now destruct (Qle_bool (rt + v) mx).
Qed.

Lemma indices_capacity (mx : Q) (l : list Q) :
  (0 <= mx)%Q ->
  Forall (fun v => (v <= mx)%Q) l ->
  forall (rt : Q) (k0 : Z),
    (rt <= mx)%Q ->
    (forall k, (volume_into k l (indices (XFin mx) (XFin rt) k0 (map XFin l))
                + (if k =? k0 then rt else 0) <= mx)%Q)
    /\ (forall k, k < k0 ->
          (volume_into k l (indices (XFin mx) (XFin rt) k0 (map XFin l)) == 0)%Q).
Proof.
  intros Hmx. induction 1 as [|v l Hv _ IH]; intros rt k0 Hrt.
  - simpl. split.
    + intros k. destruct (k =? k0); lra.
    + intros k _. reflexivity.
  - cbn [map indices]. rewrite rollover_fin.
    destruct (Qle_bool (rt + v) mx) eqn:Hle; cbn [volume_into].
    + apply Qle_bool_iff in Hle.
      destruct (IH (rt + v)%Q k0 Hle) as [IH1 IH2]. split.
      * intros k. specialize (IH1 k). rewrite (Z.eqb_sym k0 k).
        destruct (k =? k0); lra.
      * intros k Hk. rewrite (IH2 k Hk).
        destruct (k0 =? k) eqn:E; [apply Z.eqb_eq in E; lia|lra].
    + destruct (IH v (k0 + 1) Hv) as [IH1 IH2]. split.
      * intros k. specialize (IH1 k).
        destruct (k =? k0) eqn:E.
        -- apply Z.eqb_eq in E. subst k.
           rewrite (IH2 k0) by lia.
           destruct (k0 + 1 =? k0) eqn:E'; [apply Z.eqb_eq in E'; lia|lra].
        -- rewrite (Z.eqb_sym (k0 + 1) k). destruct (k =? k0 + 1); lra.
      * intros k Hk. rewrite (IH2 k) by lia.
        destruct (k0 + 1 =? k) eqn:E; [apply Z.eqb_eq in E; lia|lra].
Qed.

(** X3. No destination is over-filled.  Without rounding: if every volume is
    finite and at most [max_vol_per_well] (itself at least 0), then for every
    destination index the volumes of the wells sent there add up to at most
    [max_vol_per_well]. *)
Theorem pick_list_capacity
    (vol_sample : matrix Q) (max_vol_per_well : Q) (s0 s1 : Z) :
  0 < s0 -> s1 <> 0 ->
  Z.of_nat (List.length vol_sample) <= 1000000 ->
  Z.of_nat (size vol_sample) <= 1000000 ->
  (0 <= max_vol_per_well)%Q ->
  Forall (Forall (fun v => (v <= max_vol_per_well)%Q)) vol_sample ->
  exists picks ds,
    pick_list (mmap XFin vol_sample) (XFin max_vol_per_well) (s0, s1) = Ok picks
    /\ Forall2 (destination_is (s0, s1)) picks ds
    /\ forall k, (volume_into k (flatten vol_sample) ds <= max_vol_per_well)%Q.
Proof.
  intros H0 H1 Hrows Hsize Hmx Hall.
  destruct (pick_list_run (mmap XFin vol_sample) (XFin max_vol_per_well) s0 s1
              H0 H1) as (picks & Hok & _ & _ & Hds).
  { unfold mmap. now rewrite length_map. }
  { unfold size. rewrite flatten_mmap, length_map. exact Hsize. }
  exists picks. eexists. split; [exact Hok|]. split; [exact Hds|].
  intros k. rewrite flatten_mmap.
  apply Forall_flatten in Hall.
  destruct (indices_capacity max_vol_per_well (flatten vol_sample) Hmx Hall
              0%Q 1 Hmx)
    as [Hcap _].
  specialize (Hcap k). cbn [of_Z exact]. change (inject_Z 0) with 0%Q.
  destruct (k =? 1); lra.
Qed.

Lemma pick_list_capacity_witness :
  exists picks ds,
    pick_list (mmap XFin [[10; 10; 5]; [5; 10; 10]]%Q) (XFin 26) (16, 24) = Ok picks
    /\ Forall2 (destination_is (16, 24)) picks ds
    /\ forall k, (volume_into k [10; 10; 5; 5; 10; 10]%Q ds <= 26)%Q.
Proof.
  apply (pick_list_capacity [[10; 10; 5]; [5; 10; 10]]%Q 26%Q 16 24).
  - reflexivity.
  - discriminate.
  - simpl. lia.
  - unfold size, flatten. simpl. lia.
  - discriminate.
  - repeat constructor; discriminate.
Defined.

Lemma indices_no_rollover (mx : Q) (l : list Q) :
  Forall (fun v => (0 <= v)%Q) l ->
  forall (rt : Q) (k0 : Z),
    (rt + qsum l <= mx)%Q ->
    indices (XFin mx) (XFin rt) k0 (map XFin l) = repeat k0 (List.length l).
Proof.
  induction 1 as [|v l Hv Hl IH]; intros rt k0 Hfit; [reflexivity|].
  cbn [map indices]. rewrite rollover_fin.
  rewrite qsum_cons in Hfit. pose proof (qsum_nonneg l Hl) as Hs.
  assert (Hle : Qle_bool (rt + v) mx = true) by (apply Qle_bool_iff; lra).
  rewrite Hle. simpl. f_equal. apply IH. lra.
Qed.

Lemma Forall2_repeat_same (shp : Z * Z) (picks : list pick) (k : Z) (n : nat) :
  Forall2 (destination_is shp) picks (repeat k n) ->
  forall dst, dest_label k shp = Ok dst ->
  Forall (fun p => destination_well p = dst) picks.
Proof.
  intros HF dst Hdst. remember (repeat k n) as ds eqn:Hds.
  revert n Hds. induction HF as [|p k' picks ds Hp _ IH]; intros n Hds;
    constructor.
  - destruct n; [discriminate|]. simpl in Hds. injection Hds as -> _.
    unfold destination_is in Hp. rewrite Hdst in Hp. now injection Hp.
  - destruct n; [discriminate|]. simpl in Hds. injection Hds as _ ->.
    now apply (IH n).
Qed.

(** X4. A plate that fits goes to one well.  Without rounding: if the
    volumes are finite and at least 0 and add up to at most
    [max_vol_per_well], no rollover happens and every pick has the
    destination of index 1, on the default plate ["A1"]. *)
Theorem pick_list_single_destination
    (vol_sample : matrix Q) (max_vol_per_well : Q) :
  Z.of_nat (List.length vol_sample) <= 1000000 ->
  Z.of_nat (size vol_sample) <= 1000000 ->
  Forall (Forall (fun v => (0 <= v)%Q)) vol_sample ->
  (qsum (flatten vol_sample) <= max_vol_per_well)%Q ->
  exists picks,
    pick_list (mmap XFin vol_sample) (XFin max_vol_per_well)
      default_dest_plate_shape = Ok picks
    /\ List.length picks = size vol_sample
    /\ Forall (fun p => destination_well p = "A1") picks.
Proof.
  intros Hrows Hsize Hpos Hfit.
  destruct (pick_list_run (mmap XFin vol_sample) (XFin max_vol_per_well) 16 24)
    as (picks & Hok & _ & Hvol & Hds); try lia.
  { unfold mmap. now rewrite length_map. }
  { unfold size. rewrite flatten_mmap, length_map. exact Hsize. }
  exists picks. split; [exact Hok|]. split.
  { apply (f_equal (@List.length string)) in Hvol.
    rewrite !length_map in Hvol. rewrite Hvol. unfold size.
    now rewrite flatten_mmap, length_map. }
  rewrite flatten_mmap in Hds. cbn [of_Z exact] in Hds.
  rewrite indices_no_rollover in Hds.
  - eapply Forall2_repeat_same; [exact Hds|reflexivity].
  - now apply Forall_flatten.
  - change (inject_Z 0) with 0%Q. lra.
Qed.

Lemma pick_list_single_destination_witness :
  exists picks,
    pick_list (mmap XFin [[10; 10; 5]; [5; 10; 10]]%Q) (XFin 50)
      default_dest_plate_shape = Ok picks
    /\ List.length picks = 6%nat
    /\ Forall (fun p => destination_well p = "A1") picks.
Proof.
  apply (pick_list_single_destination [[10; 10; 5]; [5; 10; 10]]%Q 50%Q).
  - simpl. lia.
  - unfold size, flatten. simpl. lia.
  - repeat constructor; discriminate.
  - discriminate.
Defined.

(** ** A NaN volume *)

Lemma exact_nan_sticky : nan_sticky XNaN.
Proof.
  constructor; intros x; destruct x; reflexivity.
Qed.

Lemma binary64_nan_sticky : nan_sticky PrimFloat.nan.
Proof.
  constructor; intros x; simpl.
  - apply Prim2SF_inj. rewrite add_spec. reflexivity.
  - apply Prim2SF_inj. rewrite add_spec.
    change (Prim2SF PrimFloat.nan) with S754_nan.
    destruct (Prim2SF x); reflexivity.
  - rewrite ltb_spec. change (Prim2SF PrimFloat.nan) with S754_nan.
    destruct (Prim2SF x); reflexivity.
Qed.

Lemma indices_nan {F} `{Number F} (fnan mx : F) (k : Z) (l : list F) :
  nan_sticky fnan -> indices mx fnan k l = repeat k (List.length l).
Proof.
  intros Hnan. induction l as [|v l IH]; [reflexivity|].
  cbn [indices]. unfold rollover.
  rewrite (ns_add_l _ Hnan), (ns_lt_r _ Hnan). simpl. now rewrite IH.
Qed.

Lemma run_nan_well {F} `{Number F} (fnan mx rt : F) (k : Z) :
  nan_sticky fnan -> rollover rt k fnan mx = (fnan, k).
Proof.
  intros Hnan. unfold rollover.
  now rewrite (ns_add_r _ Hnan), (ns_lt_r _ Hnan).
Qed.

(** X5. A NaN volume ends the rollover, on binary64 as without rounding.
    The well with the NaN volume stays on the destination index it finds, the
    running total is NaN from then on, and every later well, whatever its
    volume, gets that same destination. *)
Theorem pick_list_nan_sticks
    (F : Type) (N : Number F) (fnan : F) (vol_sample : matrix F)
    (max_vol_per_well : F) (s0 s1 : Z) (before after : list F) :
  nan_sticky fnan ->
  0 < s0 -> s1 <> 0 ->
  Z.of_nat (List.length vol_sample) <= 1000000 ->
  Z.of_nat (size vol_sample) <= 1000000 ->
  flatten vol_sample = (before ++ fnan :: after)%list ->
  exists picks dst,
    pick_list vol_sample max_vol_per_well (s0, s1) = Ok picks
    /\ List.length (skipn (List.length before) picks) = S (List.length after)
    /\ Forall (fun p => destination_well p = dst)
         (skipn (List.length before) picks)
    /\ dest_label (snd (run max_vol_per_well (of_Z 0) 1 before)) (s0, s1)
       = Ok dst.
Proof.
  intros Hnan H0 H1 Hrows Hsize Hflat.
  destruct (pick_list_run vol_sample max_vol_per_well s0 s1 H0 H1 Hrows Hsize)
    as (picks & Hok & _ & _ & Hds).
  rewrite Hflat, indices_app in Hds. cbn [indices] in Hds.
  rewrite (run_nan_well fnan max_vol_per_well _ _ Hnan) in Hds.
  rewrite (indices_nan fnan max_vol_per_well _ after Hnan) in Hds.
  apply Forall2_app_inv_r in Hds.
  destruct Hds as (p1 & p2 & Hp1 & Hp2 & ->).
  apply Forall2_length in Hp1. rewrite indices_length in Hp1.
  set (k := snd (run max_vol_per_well (of_Z 0) 1 before)) in *.
  change (k :: repeat k (List.length after))
    with (repeat k (S (List.length after))) in Hp2.
  destruct p2 as [|p0 p2]; [inversion Hp2|].
  exists (p1 ++ p0 :: p2)%list, (destination_well p0).
  rewrite <- Hp1, skipn_app, skipn_all, Nat.sub_diag. cbn [skipn app].
  split; [exact Hok|].
  assert (Hk : dest_label k (s0, s1) = Ok (destination_well p0)).
  { inversion Hp2; subst. assumption. }
  split.
  { apply Forall2_length in Hp2. now rewrite repeat_length in Hp2. }
  split; [|exact Hk].
  eapply Forall2_repeat_same; [exact Hp2|exact Hk].
Qed.

Lemma pick_list_nan_sticks_witness :
  exists picks dst,
    pick_list test_vols_nan (of_Z 26) (16, 24) = Ok picks
    /\ List.length (skipn 2 picks) = 4%nat
    /\ Forall (fun p => destination_well p = dst) (skipn 2 picks)
    /\ dest_label (snd (run (of_Z 26) (of_Z 0) 1 [10; 10]%float)) (16, 24)
       = Ok dst.
Proof.
  apply (pick_list_nan_sticks float binary64 PrimFloat.nan test_vols_nan
           (of_Z 26) 16 24 [10; 10]%float [5; 10; 10]%float).
  - exact binary64_nan_sticky.
  - reflexivity.
  - discriminate.
  - simpl. lia.
  - unfold size, flatten. simpl. lia.
  - reflexivity.
Defined.

(** ** A plate without rows or columns *)

Lemma dest_label_zero (k s0 s1 : Z) :
  s0 = 0 \/ (0 < s0 /\ s1 = 0) -> 0 <= k -> k + 65 <= 1114111 ->
  dest_label k (s0, s1) = Raise ZeroDivisionError.
Proof.
  intros [-> | [H0 ->]] Hk Hb; unfold dest_label; [reflexivity|].
  destruct (s0 =? 0) eqn:E0; [reflexivity|].
  assert (Hq : 0 <= k / s0 <= k).
  { split; [apply Z.div_pos; lia|].
    apply Z.div_le_upper_bound; [lia|nia]. }
  destruct (chr_ok (65 + k / s0)) as [row Hrow]; [lia|].
  rewrite Hrow. reflexivity.
Qed.

Lemma visit_well_zero {F} `{Number F} (mx : F) (s0 s1 i j : Z) (vol : F)
    (st : pooling_state) :
  s0 = 0 \/ (0 < s0 /\ s1 = 0) -> 0 <= i -> i + 65 <= 1114111 ->
  1 <= d st -> d st + 66 <= 1114111 ->
  visit_well mx (s0, s1) i j vol st = Raise ZeroDivisionError.
Proof.
  intros Hz Hi Hib Hd Hdb. unfold visit_well.
  destruct (chr_ok (65 + i)) as [row Hrow]; [lia|].
  rewrite Hrow. cbn [bind].
  pose proof (rollover_d (running_tot st) vol mx (d st)) as Hstep.
  destruct (rollover (running_tot st) (d st) vol mx) as [tot k]. simpl in Hstep.
  cbv beta iota zeta. rewrite dest_label_zero by (auto; lia). reflexivity.
Qed.

Lemma visit_rows_zero {F} `{Number F} (mx : F) (s0 s1 : Z) (rows : matrix F)
    (st : pooling_state) :
  s0 = 0 \/ (0 < s0 /\ s1 = 0) ->
  1 <= d st -> d st + 66 <= 1114111 ->
  forall i, 0 <= i -> i + Z.of_nat (List.length rows) + 65 <= 1114111 ->
  visit_rows mx (s0, s1) i rows st
  = if Nat.eqb (size rows) 0 then Ok st else Raise ZeroDivisionError.
Proof.
  intros Hz Hd Hdb.
  induction rows as [|row rows IH]; intros i Hi Hib; [reflexivity|].
  cbn [visit_rows]. simpl List.length in Hib.
  destruct row as [|vol row].
  - cbn [visit_row bind]. rewrite IH by lia. reflexivity.
  - cbn [visit_row]. rewrite visit_well_zero by (auto; lia). reflexivity.
Qed.

(** X6. A destination plate with a dimension 0.  If [dest_plate_shape[0]] is
    0, or it is positive and [dest_plate_shape[1]] is 0, then the call raises
    [ZeroDivisionError] as soon as the array has a well, and returns the
    header alone when the array has none. *)
Theorem pick_list_zero_plate
    (F : Type) (N : Number F) (vol_sample : matrix F) (max_vol_per_well : F)
    (s0 s1 : Z) :
  s0 = 0 \/ (0 < s0 /\ s1 = 0) ->
  Z.of_nat (List.length vol_sample) <= 1000000 ->
  format_pooling_echo_pick_list vol_sample max_vol_per_well (s0, s1)
  = if Nat.eqb (size vol_sample) 0 then Ok header else Raise ZeroDivisionError.
Proof.
  intros Hz Hrows. unfold format_pooling_echo_pick_list, pick_list.
  assert (Hd : 1 <= d (initial_state (F := F))) by (unfold initial_state; cbn [d]; lia).
  assert (Hdb : d (initial_state (F := F)) + 66 <= 1114111)
    by (unfold initial_state; cbn [d]; lia).
  assert (Hib : 0 + Z.of_nat (List.length vol_sample) + 65 <= 1114111) by lia.
  rewrite (visit_rows_zero max_vol_per_well s0 s1 vol_sample initial_state
             Hz Hd Hdb 0 (Z.le_refl 0) Hib).
  destruct (Nat.eqb (size vol_sample) 0); reflexivity.
Qed.

Lemma pick_list_zero_plate_witness :
  format_pooling_echo_pick_list [[]; [10; 10]]%float (of_Z 26) (16, 0)
  = Raise ZeroDivisionError
  /\ format_pooling_echo_pick_list [[]; []] (of_Z 26 : float) (0, 24)
     = Ok header.
Proof.
  split.
  - apply (pick_list_zero_plate float binary64 [[]; [10; 10]]%float
             (of_Z 26) 16 0).
    + right. split; [reflexivity|reflexivity].
    + simpl. lia.
  - apply (pick_list_zero_plate float binary64 [[]; []] (of_Z 26) 0 24).
    + left. reflexivity.
    + simpl. lia.
Defined.

(** * More on the volumes from qPCR concentrations *)

Local Open Scope Q_scope.

Lemma Forall_mmap_in {A B} (P : B -> Prop) (f : A -> B) (m : matrix A) :
  (forall a, In a (flatten m) -> P (f a)) -> Forall (Forall P) (mmap f m).
Proof.
  unfold flatten, mmap. induction m as [|row m IH]; intros Hin; simpl.
  - constructor.
  - constructor.
    + apply Forall_map, Forall_forall. intros a Ha. apply Hin.
      simpl. apply in_or_app. now left.
    + apply IH. intros a Ha. apply Hin. simpl. apply in_or_app. now right.
Qed.

Lemma Forall2_mmap_in {A B} (R : A -> B -> Prop) (f : A -> B) (m : matrix A) :
  (forall a, In a (flatten m) -> R a (f a)) -> Forall2 (Forall2 R) m (mmap f m).
Proof.
  unfold flatten, mmap. induction m as [|row m IH]; intros Hin; simpl.
  - constructor.
  - constructor.
    + assert (Hrow : forall a, In a row -> R a (f a)).
      { intros a Ha. apply Hin. simpl. apply in_or_app. now left. }
      clear -Hrow. induction row as [|a row IHr]; simpl; constructor.
      * apply Hrow. now left.
      * apply IHr. intros b Hb. apply Hrow. now right.
    + apply IH. intros a Ha. apply Hin. simpl. apply in_or_app. now right.
Qed.

Lemma qsum_ge_elem (qs : list Q) (q : Q) :
  Forall (fun x => 0 <= x) qs -> In q qs -> q <= qsum qs.
Proof.
  induction 1 as [|x qs Hx Hqs IH]; intros Hin; [contradiction|].
  rewrite qsum_cons. pose proof (qsum_nonneg qs Hqs) as Hs.
  destruct Hin as [-> | Hin]; [lra|]. specialize (IH Hin). lra.
Qed.

Lemma qfraction_le_sum (sample_concs : matrix xreal) (min_conc c : xreal) :
  In c (flatten sample_concs) ->
  qfraction (size sample_concs) min_conc c <= qpass_sum sample_concs min_conc.
Proof.
  intros Hin. unfold qpass_sum. apply qsum_ge_elem.
  - apply Forall_map, Forall_forall. intros x _. apply qfraction_nonneg.
  - now apply in_map.
Qed.

(** A well without NaN is floored to a finite concentration of at least
    [floor_conc] or stays at [+inf]. *)
Lemma well_floor_ge (floor_conc : Q) (c : xreal) :
  c <> XNaN ->
  well_floor (XFin floor_conc) c = XInf false
  \/ exists q, floor_conc <= q /\ well_floor (XFin floor_conc) c = XFin q.
Proof.
  intros Hc. destruct c as [| [|] | q].
  - now contradiction Hc.
  - right. exists floor_conc. split; [lra|reflexivity].
  - left. reflexivity.
  - right. exists (qfloor floor_conc q). split; [|apply well_floor_fin].
    unfold qfloor. destruct (Qle_bool floor_conc q) eqn:Hle; simpl; [|lra].
    now apply Qle_bool_iff in Hle.
Qed.

Lemma well_volume_capped (n : nat) (S : Q) (min_conc : xreal)
    (floor_conc total_nmol : Q) (c : xreal) :
  (0 < n)%nat -> 0 < S -> 0 < floor_conc -> 0 <= total_nmol -> c <> XNaN ->
  qfraction n min_conc c <= S ->
  exists v,
    well_volume n (XFin (inject_Z 1 / S)) min_conc
      (XFin floor_conc) (XFin total_nmol) c = XFin v
    /\ 0 <= v <= total_nmol / floor_conc * inject_Z (10 ^ 9).
Proof.
  intros Hn HS Hf Ht Hc Hle. unfold well_volume.
  rewrite (well_fraction_fin n min_conc c Hn).
  pose proof (qfraction_nonneg n min_conc c) as Hq.
  set (p := qfraction n min_conc c) in *.
  assert (HK : 0 < inject_Z (10 ^ 9)) by reflexivity.
  set (K := inject_Z (10 ^ 9)) in *.
  assert (Hshare : 0 <= p * (inject_Z 1 / S) <= 1).
  { change (inject_Z 1) with 1. split.
    - apply Qmult_le_0_compat; [exact Hq|]. apply Qdiv_nonneg; lra.
    - setoid_replace (p * (1 / S)) with (p / S) by (field; lra).
      apply Qle_shift_div_r; lra. }
  set (w := p * (inject_Z 1 / S)) in *.
  assert (Hcap : 0 <= total_nmol / floor_conc * K).
  { apply Qmult_le_0_compat; [|lra]. apply Qdiv_nonneg; lra. }
  destruct (well_floor_ge floor_conc c Hc) as [-> | (q & Hqf & ->)].
  - cbn [fmul fdiv of_Z exact xmul xdiv].
    eexists. split; [reflexivity|]. fold K. split; lra.
  - assert (Hqpos : 0 < q) by lra.
    assert (Hz : Qzero q = false) by (apply Qzero_false; lra).
    cbn [fmul fdiv of_Z exact xmul xdiv]. rewrite Hz. cbn [xmul].
    eexists. split; [reflexivity|].
    assert (Hnum : 0 <= total_nmol * w <= total_nmol) by nra.
    assert (Hdiv : 0 <= total_nmol * w / q <= total_nmol / floor_conc).
    { split; [apply Qdiv_nonneg; lra|].
      apply Qle_shift_div_r; [exact Hqpos|].
      setoid_replace (total_nmol / floor_conc * q)
        with (total_nmol * q / floor_conc) by (field; lra).
      apply Qle_shift_div_l; [exact Hf|]. nra. }
    destruct Hdiv as [Hd0 Hd1].
    split; [apply Qmult_le_0_compat; [exact Hd0|exact (Qlt_le_weak _ _ HK)]|].
    apply Qmult_le_compat_r; [exact Hd1|exact (Qlt_le_weak _ _ HK)].
Qed.

(** X7. The floor concentration caps the volume of a well.  Without rounding,
    with the default fractions: if no concentration is NaN, at least one is
    above [min_conc], [floor_conc > 0] and [total_nmol >= 0], then every
    returned volume is finite, at least 0 and at most
    [total_nmol / floor_conc * 10**9] nL. *)
Theorem qpcr_volume_capped
    (sample_concs : matrix xreal) (min_conc : xreal) (floor_conc total_nmol : Q) :
  0 < floor_conc -> 0 <= total_nmol ->
  Forall (Forall (fun c => c <> XNaN)) sample_concs ->
  Exists (fun c => flt min_conc c = true) (flatten sample_concs) ->
  exists sample_vols,
    compute_shotgun_pooling_values_qpcr sample_concs None
      min_conc (XFin floor_conc) (XFin total_nmol) = Ok sample_vols
    /\ Forall (Forall (fun v => exists q,
         v = XFin q
         /\ 0 <= q <= total_nmol / floor_conc * inject_Z (10 ^ 9)))
         sample_vols.
Proof.
  intros Hf Ht Hnan Hex.
  eexists. split; [apply qpcr_default_wells|].
  pose proof (Exists_size_pos _ _ Hex) as Hn.
  pose proof (qpass_sum_pos _ _ Hex) as HS.
  rewrite renorm_factor; [|exact Hn|lra].
  apply Forall_mmap_in. intros c Hin.
  apply well_volume_capped; try assumption.
  - apply Forall_flatten in Hnan. rewrite Forall_forall in Hnan. now apply Hnan.
  - now apply qfraction_le_sum.
Qed.

Lemma qpcr_volume_capped_witness :
  exists sample_vols,
    compute_shotgun_pooling_values_qpcr
      (mmap XFin [[1; 12; 400]; [200; 40; 1]]) None
      (XFin 10) (XFin 50) (XFin (1 # 100)) = Ok sample_vols
    /\ Forall (Forall (fun v => exists q,
         v = XFin q /\ 0 <= q <= (1 # 100) / 50 * inject_Z (10 ^ 9)))
         sample_vols.
Proof.
  apply (qpcr_volume_capped (mmap XFin [[1; 12; 400]; [200; 40; 1]])
           (XFin 10) 50 (1 # 100)).
  - reflexivity.
  - discriminate.
  - repeat constructor; discriminate.
  - apply Exists_cons_tl, Exists_cons_hd. reflexivity.
Defined.

Lemma well_volume_excluded (n : nat) (S : Q) (min_conc : xreal)
    (floor_conc total_nmol : Q) (c : xreal) :
  0 < floor_conc -> fle c min_conc = true ->
  xeq (well_volume n (XFin (inject_Z 1 / S)) min_conc
         (XFin floor_conc) (XFin total_nmol) c) (XFin 0).
Proof.
  intros Hf Hc. unfold well_volume.
  rewrite (well_fraction_zero n min_conc c Hc).
  assert (Hnan : c <> XNaN) by (intros ->; discriminate Hc).
  destruct (well_floor_cases floor_conc c Hf Hnan) as [-> | (q & Hq & ->)].
  - cbn [fmul fdiv of_Z exact xmul xdiv xeq]. ring.
  - assert (Hz : Qzero q = false) by (apply Qzero_false; lra).
    cbn [fmul fdiv of_Z exact xmul xdiv]. rewrite Hz. cbn [xmul xeq].
    change (inject_Z 0) with 0. unfold Qdiv. ring.
Qed.

(** X8. A well at or below [min_conc] gets no volume.  Without rounding, with
    the default fractions: if at least one well is above [min_conc] and
    [floor_conc > 0], every well whose concentration is at most [min_conc]
    has the volume 0. *)
Theorem qpcr_excluded_wells_zero
    (sample_concs : matrix xreal) (min_conc : xreal) (floor_conc total_nmol : Q) :
  0 < floor_conc ->
  Exists (fun c => flt min_conc c = true) (flatten sample_concs) ->
  exists sample_vols,
    compute_shotgun_pooling_values_qpcr sample_concs None
      min_conc (XFin floor_conc) (XFin total_nmol) = Ok sample_vols
    /\ Forall2 (Forall2 (fun c v => fle c min_conc = true -> xeq v (XFin 0)))
         sample_concs sample_vols.
Proof.
  intros Hf Hex.
  eexists. split; [apply qpcr_default_wells|].
  pose proof (Exists_size_pos _ _ Hex) as Hn.
  pose proof (qpass_sum_pos _ _ Hex) as HS.
  rewrite renorm_factor; [|exact Hn|lra].
  apply Forall2_mmap. intros c Hc. now apply well_volume_excluded.
Qed.

Lemma qpcr_excluded_wells_zero_witness :
  exists sample_vols,
    compute_shotgun_pooling_values_qpcr
      (mmap XFin [[1; 12; 400]; [200; 40; 1]]) None
      (XFin 10) (XFin 50) (XFin (1 # 100)) = Ok sample_vols
    /\ Forall2 (Forall2 (fun c v => fle c (XFin 10) = true -> xeq v (XFin 0)))
         (mmap XFin [[1; 12; 400]; [200; 40; 1]]) sample_vols.
Proof.
  apply (qpcr_excluded_wells_zero (mmap XFin [[1; 12; 400]; [200; 40; 1]])
           (XFin 10) 50 (1 # 100)).
  - reflexivity.
  - apply Exists_cons_tl, Exists_cons_hd. reflexivity.
Defined.

(** The passing fractions sum to the number of passing wells over the number
    of wells. *)
Lemma qsum_fractions_count (n : nat) (min_conc : xreal) (l : list xreal) :
  qsum (map (qfraction n min_conc) l)
  == inject_Z (Z.of_nat (List.length
                           (filter (fun c => negb (fle c min_conc)) l)))
     * (inject_Z 1 / inject_Z (Z.of_nat n)).
Proof.
  induction l as [|c l IH]; simpl map; simpl filter.
  - rewrite qsum_nil. simpl. ring.
  - rewrite qsum_cons, IH. unfold qfraction at 1. simpl fle.
    destruct (xle c min_conc); simpl negb; cbv iota.
    + change (inject_Z 0) with 0. ring.
    + simpl List.length. rewrite Nat2Z.inj_succ, <- Z.add_1_r, inject_Z_plus.
      change (inject_Z 1) with 1. ring.
Qed.

(** X9. Equal molar pooling.  Without rounding, with the default fractions,
    a finite [min_conc] and [floor_conc > 0]: every well above [min_conc] and
    at or above [floor_conc] contributes the same amount, volume times
    concentration is [total_nmol * 10**9 / k], where [k] is the number of
    wells above [min_conc]. *)
Theorem qpcr_equal_molar
    (sample_concs : matrix Q) (min_conc floor_conc total_nmol : Q) :
  0 < floor_conc ->
  Exists (fun c => min_conc < c) (flatten sample_concs) ->
  exists sample_vols,
    compute_shotgun_pooling_values_qpcr (mmap XFin sample_concs) None
      (XFin min_conc) (XFin floor_conc) (XFin total_nmol) = Ok sample_vols
    /\ Forall2 (Forall2 (fun c v =>
         min_conc < c -> floor_conc <= c ->
         xeq (fmul v (XFin c))
             (XFin (total_nmol * inject_Z (10 ^ 9)
                    / inject_Z (Z.of_nat
                        (List.length (filter (fun x => negb (Qle_bool x min_conc))
                                        (flatten sample_concs))))))))
         sample_concs sample_vols.
Proof.
  intros Hf Hex.
  assert (Hex' : Exists (fun c => flt (XFin min_conc) c = true)
                   (flatten (mmap XFin sample_concs))).
  { rewrite flatten_mmap. apply Exists_map.
    eapply Exists_impl; [|exact Hex]. intros c Hc. cbv beta in Hc. simpl.
    apply negb_true_iff. destruct (Qle_bool c min_conc) eqn:Hle; [|reflexivity].
    apply Qle_bool_iff in Hle. lra. }
  pose proof (Exists_size_pos _ _ Hex') as Hn.
  pose proof (qpass_sum_pos _ _ Hex') as HS.
  eexists. split; [apply qpcr_default_wells|].
  rewrite renorm_factor; [|exact Hn|lra].
  unfold qpass_sum in *. rewrite qsum_fractions_count in HS.
  rewrite flatten_mmap, filter_map_swap, length_map in HS.
  set (n := size (mmap XFin sample_concs)) in *.
  set (k := List.length (filter (fun x => negb (fle (XFin x) (XFin min_conc)))
                           (flatten sample_concs))) in *.
  change (fun x => negb (Qle_bool x min_conc))
    with (fun x => negb (fle (XFin x) (XFin min_conc))). fold k.
  assert (Hnpos : 0 < inject_Z (Z.of_nat n)).
  { unfold Qlt, inject_Z. simpl. lia. }
  assert (Hkpos : 0 < inject_Z (Z.of_nat k)).
  { change (inject_Z 1) with 1 in HS.
    destruct (Qlt_le_dec 0 (inject_Z (Z.of_nat k))) as [Hk|Hk]; [exact Hk|].
    assert (0 <= 1 / inject_Z (Z.of_nat n)) by (apply Qdiv_nonneg; lra).
    nra. }
  rewrite mmap_mmap. apply Forall2_mmap. intros c Hmin Hfl.
  assert (Hq : qfraction n (XFin min_conc) (XFin c)
               == inject_Z 1 / inject_Z (Z.of_nat n)).
  { unfold qfraction. simpl.
    destruct (Qle_bool c min_conc) eqn:Hle; [|reflexivity].
    apply Qle_bool_iff in Hle. lra. }
  assert (Hfloor : qfloor floor_conc c = c).
  { unfold qfloor. destruct (Qle_bool floor_conc c) eqn:Hle; [reflexivity|].
    assert (Hle' : Qle_bool floor_conc c = true) by (now apply Qle_bool_iff).
    congruence. }
  pose proof (well_term_fin n
                (qsum (map (qfraction n (XFin min_conc))
                         (flatten (mmap XFin sample_concs))))
                (XFin min_conc) floor_conc total_nmol c Hn Hf) as Hterm.
  rewrite well_floor_fin, Hfloor in Hterm. rewrite Hterm. cbn [xeq].
  rewrite Hq, qsum_fractions_count.
  rewrite flatten_mmap, filter_map_swap, length_map. fold k.
  assert (Hc : 0 < c) by lra.
  change (inject_Z 1) with 1. field.
  repeat split; lra.
Qed.

Lemma qpcr_equal_molar_witness :
  exists sample_vols,
    compute_shotgun_pooling_values_qpcr
      (mmap XFin [[1; 12; 400]; [200; 40; 1]]) None
      (XFin 10) (XFin 50) (XFin (1 # 100)) = Ok sample_vols
    /\ Forall2 (Forall2 (fun c v =>
         10 < c -> 50 <= c ->
         xeq (fmul v (XFin c))
             (XFin ((1 # 100) * inject_Z (10 ^ 9)
                    / inject_Z (Z.of_nat
                        (List.length (filter (fun x => negb (Qle_bool x 10))
                                        [1; 12; 400; 200; 40; 1])))))))
         [[1; 12; 400]; [200; 40; 1]] sample_vols.
Proof.
  apply (qpcr_equal_molar [[1; 12; 400]; [200; 40; 1]] 10 50 (1 # 100)).
  - reflexivity.
  - apply Exists_cons_tl, Exists_cons_hd. reflexivity.
Defined.

(** ** Explicit fractions *)




(** * More on the pool estimate *)

Lemma xeq_sym (x y : xreal) : xeq x y -> xeq y x.
Proof.
  destruct x, y; simpl; auto. intros H. now symmetry.
Qed.

Lemma xeq_trans (x y z : xreal) : xeq x y -> xeq y z -> xeq x z.
Proof.
  destruct x, y, z; simpl; try contradiction; auto; try congruence.
  intros H1 H2. now rewrite H1.
Qed.

Lemma Qzero_compat (a b : Q) : a == b -> Qzero a = Qzero b.
Proof.
  intros Hab. destruct (Qzero b) eqn:Hb.
  - apply Qzero_true. apply Qzero_true in Hb. now rewrite Hab.
  - apply Qzero_false. apply Qzero_false in Hb. now rewrite Hab.
Qed.

Lemma Qneg_compat (a b : Q) : a == b -> Qneg a = Qneg b.
Proof.
  intros Hab. destruct (Qneg b) eqn:Hb.
  - apply Qneg_true. apply Qneg_true in Hb. now rewrite Hab.
  - apply Qneg_false. apply Qneg_false in Hb. now rewrite Hab.
Qed.

Lemma xdiv_compat (a a' b b' : Q) :
  a == a' -> b == b' ->
  xeq (xdiv (XFin a) (XFin b)) (xdiv (XFin a') (XFin b')).
Proof.
  intros Ha Hb. unfold xdiv.
  rewrite (Qzero_compat b b' Hb), (Qzero_compat a a' Ha), (Qneg_compat a a' Ha).
  destruct (Qzero b') eqn:Hz.
  - destruct (Qzero a'); simpl; auto.
  - simpl. apply Qzero_false in Hz. now rewrite Ha, Hb.
Qed.

Lemma weighted_sum_bounds (lo hi : Q) (vl cl : list Q) :
  List.length vl = List.length cl ->
  Forall (fun v => 0 <= v) vl ->
  Forall (fun c => lo <= c <= hi) cl ->
  lo * qsum vl <= qsum (zip_with Qmult vl cl) <= hi * qsum vl.
Proof.
  intros Hlen Hv. revert cl Hlen.
  induction Hv as [|v vl Hv0 _ IH]; intros [|c cl] Hlen Hc; simpl in Hlen;
    try discriminate.
  - simpl. rewrite qsum_nil. lra.
  - inversion Hc as [|? ? Hc0 Hcl]; subst.
    simpl zip_with. rewrite !qsum_cons.
    specialize (IH cl ltac:(lia) Hcl). nra.
Qed.

(** X11. The pool concentration is an average.  Without rounding: for finite
    arrays of one shape, volumes at least 0 that are not all 0, and
    concentrations between [lo] and [hi], the estimated pool concentration is
    finite and between [lo] and [hi]. *)
Theorem estimate_pool_between
    (sample_vols sample_concs : matrix Q) (lo hi : Q) :
  shape sample_vols = shape sample_concs ->
  Forall (Forall (fun v => 0 <= v)) sample_vols ->
  0 < qsum (flatten sample_vols) ->
  Forall (Forall (fun c => lo <= c <= hi)) sample_concs ->
  exists pool_conc,
    estimate_pool_conc_vol (mmap XFin sample_vols) (mmap XFin sample_concs)
    = Ok (XFin pool_conc, XFin (qsum (flatten sample_vols)))
    /\ lo <= pool_conc <= hi.
Proof.
  intros Hshape Hv Hpos Hc.
  rewrite (estimate_pool_fin _ _ Hshape).
  pose proof nl_scalar_pos as Hs.
  set (s := inject_Z 1 / inject_Z (10 ^ 9)) in *.
  set (B := qsum (flatten sample_vols)) in *.
  assert (Hz : Qzero (B * s) = false) by (apply Qzero_false; nra).
  unfold xdiv. rewrite Hz.
  eexists. split; [reflexivity|].
  rewrite qsum_zip_scaled.
  apply Forall_flatten in Hv. apply Forall_flatten in Hc.
  pose proof (weighted_sum_bounds lo hi (flatten sample_vols)
                (flatten sample_concs)
                (shape_length_flatten _ _ Hshape) Hv Hc) as [Hlo Hhi].
  fold B in Hlo, Hhi.
  setoid_replace (qsum (zip_with Qmult (flatten sample_vols) (flatten sample_concs))
                  * s / (B * s))
    with (qsum (zip_with Qmult (flatten sample_vols) (flatten sample_concs)) / B)
    by (field; split; lra).
  split.
  - apply Qle_shift_div_l; [exact Hpos|exact Hlo].
  - apply Qle_shift_div_r; [exact Hpos|exact Hhi].
Qed.

Lemma estimate_pool_between_witness :
  exists pool_conc,
    estimate_pool_conc_vol (mmap XFin [[5000; 2500]; [0; 2500]])
                           (mmap XFin [[400; 100]; [7; 300]])
    = Ok (XFin pool_conc, XFin (qsum [5000; 2500; 0; 2500]))
    /\ 7 <= pool_conc <= 400.
Proof.
  apply (estimate_pool_between [[5000; 2500]; [0; 2500]] [[400; 100]; [7; 300]]
           7 400).
  - reflexivity.
  - repeat constructor; discriminate.
  - reflexivity.
  - repeat constructor; discriminate.
Defined.

Lemma qsum_zip_scale_l (k : Q) (vl cl : list Q) :
  qsum (zip_with Qmult (map (Qmult k) vl) cl)
  == k * qsum (zip_with Qmult vl cl).
Proof.
  revert cl. induction vl as [|v vl IH]; intros [|c cl]; simpl;
    rewrite ?qsum_nil; try ring.
  rewrite !qsum_cons, IH. ring.
Qed.

Lemma size_mmap_eq {A B} (f : A -> B) (m : matrix A) : size (mmap f m) = size m.
Proof.
  unfold size. rewrite flatten_mmap. apply length_map.
Qed.

(** X12. Scaling the volumes.  Without rounding: multiplying every volume of
    a finite array by the same [k > 0] multiplies the estimated pool volume
    by [k] and leaves the estimated pool concentration as it is (also when it
    is an infinity or NaN). *)
Theorem estimate_pool_scale_volumes
    (sample_vols sample_concs : matrix Q) (k : Q) :
  shape sample_vols = shape sample_concs ->
  0 < k ->
  exists pool_conc pool_conc' pool_vol',
    estimate_pool_conc_vol (mmap XFin sample_vols) (mmap XFin sample_concs)
    = Ok (pool_conc, XFin (qsum (flatten sample_vols)))
    /\ estimate_pool_conc_vol (mmap XFin (mmap (Qmult k) sample_vols))
         (mmap XFin sample_concs)
       = Ok (pool_conc', XFin pool_vol')
    /\ xeq pool_conc' pool_conc
    /\ pool_vol' == k * qsum (flatten sample_vols).
Proof.
  intros Hshape Hk.
  rewrite (estimate_pool_fin _ _ Hshape).
  rewrite (estimate_pool_fin (mmap (Qmult k) sample_vols) sample_concs)
    by (now rewrite shape_mmap).
  do 3 eexists. split; [reflexivity|]. split; [reflexivity|].
  rewrite flatten_mmap.
  split; [|apply qsum_scale].
  set (s := inject_Z 1 / inject_Z (10 ^ 9)).
  set (A := qsum (zip_with (fun c v => c * v * s)
                    (flatten sample_concs) (flatten sample_vols))).
  set (B := qsum (flatten sample_vols)).
  apply (xeq_trans _ (xdiv (XFin (A * k)) (XFin (B * s * k)))).
  - apply xdiv_compat.
    + unfold A. rewrite !qsum_zip_scaled, qsum_zip_scale_l. ring.
    + unfold B. rewrite qsum_scale. ring.
  - apply xdiv_scale; [exact Hk|reflexivity].
Qed.

Lemma estimate_pool_scale_volumes_witness :
  exists pool_conc pool_conc' pool_vol',
    estimate_pool_conc_vol (mmap XFin [[5000; 2500]; [0; 2500]])
                           (mmap XFin [[400; 100]; [7; 300]])
    = Ok (pool_conc, XFin (qsum [5000; 2500; 0; 2500]))
    /\ estimate_pool_conc_vol
         (mmap XFin (mmap (Qmult 3) [[5000; 2500]; [0; 2500]]))
         (mmap XFin [[400; 100]; [7; 300]])
       = Ok (pool_conc', XFin pool_vol')
    /\ xeq pool_conc' pool_conc
    /\ pool_vol' == 3 * qsum [5000; 2500; 0; 2500].
Proof.
  apply (estimate_pool_scale_volumes [[5000; 2500]; [0; 2500]]
           [[400; 100]; [7; 300]] 3).
  - reflexivity.
  - reflexivity.
Defined.

Lemma qsum_const {A} (w : Q) (l : list A) :
  qsum (map (fun _ => w) l) == inject_Z (Z.of_nat (List.length l)) * w.
Proof.
  induction l as [|a l IH]; simpl map.
  - rewrite qsum_nil. simpl. ring.
  - rewrite qsum_cons, IH. simpl List.length.
    rewrite Nat2Z.inj_succ, <- Z.add_1_r, inject_Z_plus.
    change (inject_Z 1) with 1. ring.
Qed.

Lemma qsum_zip_const (w : Q) (cl : list Q) :
  qsum (zip_with Qmult (map (fun _ => w) cl) cl) == w * qsum cl.
Proof.
  induction cl as [|c cl IH]; simpl.
  - rewrite qsum_nil. ring.
  - rewrite !qsum_cons, IH. ring.
Qed.

(** X13. Equal volumes pool to the mean.  Without rounding, as the unit test
    composes the two functions: for finite concentrations in N >= 1 wells
    and a target volume [V > 0] uL, the equal volumes pooled have the
    estimated pool volume [1000 * V] nL and the estimated pool concentration
    [sum(concentrations) / N]. *)
Theorem eqvol_pool_is_mean (sample_concs : matrix Q) (total_vol : Q) :
  (0 < size sample_concs)%nat -> 0 < total_vol ->
  exists sample_vols pool_conc pool_vol,
    compute_shotgun_pooling_values_eqvol (mmap XFin sample_concs) (XFin total_vol)
    = Ok sample_vols
    /\ estimate_pool_conc_vol sample_vols (mmap XFin sample_concs)
       = Ok (XFin pool_conc, XFin pool_vol)
    /\ pool_vol == 1000 * total_vol
    /\ pool_conc == qsum (flatten sample_concs)
                    / inject_Z (Z.of_nat (size sample_concs)).
Proof.
  intros Hn HV.
  unfold compute_shotgun_pooling_values_eqvol.
  rewrite size_mmap_eq.
  destruct (Nat.eqb_spec (size sample_concs) 0) as [Hz|_]; [lia|].
  set (n := inject_Z (Z.of_nat (size sample_concs))).
  assert (Hnpos : 0 < n).
  { unfold n, Qlt, inject_Z. simpl. lia. }
  assert (Hzn : Qzero n = false) by (apply Qzero_false; lra).
  set (w := inject_Z 0 + total_vol / n * inject_Z 1000).
  assert (Hvols :
    mmap (fun _ : xreal =>
            fadd (of_Z 0)
              (fmul (fdiv (XFin total_vol)
                       (of_Z (Z.of_nat (size sample_concs)))) (of_Z 1000)))
         (mmap XFin sample_concs)
    = mmap XFin (mmap (fun _ => w) sample_concs)).
  { rewrite !mmap_mmap. apply mmap_ext. intros c.
    cbn [fadd fmul fdiv of_Z exact xadd xmul xdiv]. fold n. rewrite Hzn.
    reflexivity. }
  exists (mmap XFin (mmap (fun _ => w) sample_concs)). do 2 eexists.
  split; [now rewrite Hvols|].
  rewrite (estimate_pool_fin (mmap (fun _ => w) sample_concs) sample_concs)
    by (now rewrite shape_mmap).
  rewrite flatten_mmap.
  pose proof nl_scalar_pos as Hs.
  set (s := inject_Z 1 / inject_Z (10 ^ 9)) in *.
  assert (Hw : 0 < w).
  { unfold w. change (inject_Z 0) with 0. change (inject_Z 1000) with 1000.
    assert (0 < total_vol / n) by (apply Qlt_shift_div_l; lra). lra. }
  assert (HB : qsum (map (fun _ : Q => w) (flatten sample_concs)) == n * w).
  { rewrite qsum_const. reflexivity. }
  assert (Hz : Qzero (qsum (map (fun _ : Q => w) (flatten sample_concs)) * s)
               = false).
  { apply Qzero_false. rewrite HB.
    assert (0 < n * w) by nra. intros Hc. nra. }
  unfold xdiv. rewrite Hz.
  split; [reflexivity|].
  split.
  - rewrite HB. unfold w. change (inject_Z 0) with 0.
    change (inject_Z 1000) with 1000. field. lra.
  - rewrite qsum_zip_scaled, HB, qsum_zip_const.
    field. repeat split; try lra. discriminate.
Qed.

Lemma eqvol_pool_is_mean_witness :
  exists sample_vols pool_conc pool_vol,
    compute_shotgun_pooling_values_eqvol
      (mmap XFin [[1; 12; 400]; [200; 40; 1]]) (XFin 60) = Ok sample_vols
    /\ estimate_pool_conc_vol sample_vols (mmap XFin [[1; 12; 400]; [200; 40; 1]])
       = Ok (XFin pool_conc, XFin pool_vol)
    /\ pool_vol == 1000 * 60
    /\ pool_conc == qsum [1; 12; 400; 200; 40; 1] / inject_Z 6.
Proof.
  apply (eqvol_pool_is_mean [[1; 12; 400]; [200; 40; 1]] 60).
  - unfold size, flatten. simpl. lia.
  - reflexivity.
Defined.

(** ** Pooling by qPCR, then estimating the pool *)

Lemma well_volume_fin (n : nat) (S : Q) (min_conc : xreal)
    (floor_conc total_nmol c : Q) :
  (0 < n)%nat -> 0 < floor_conc ->
  well_volume n (XFin (inject_Z 1 / S)) min_conc
    (XFin floor_conc) (XFin total_nmol) (XFin c)
  = XFin (qvolume n S min_conc floor_conc total_nmol c).
Proof.
  intros Hn Hf. unfold well_volume, qvolume.
  rewrite (well_fraction_fin n min_conc (XFin c) Hn), well_floor_fin.
  pose proof (qfloor_pos floor_conc c Hf) as Hq.
  assert (Hz : Qzero (qfloor floor_conc c) = false) by (apply Qzero_false; lra).
  cbn [fmul fdiv of_Z exact xmul xdiv]. rewrite Hz. reflexivity.
Qed.

Lemma qsum_le {A} (f g : A -> Q) (l : list A) :
  Forall (fun a => f a <= g a) l -> qsum (map f l) <= qsum (map g l).
Proof.
  induction 1 as [|a l Ha _ IH]; simpl map; [apply Qle_refl|].
  rewrite !qsum_cons. lra.
Qed.

Lemma zip_with_map_l {A B C} (f : B -> A -> C) (h : A -> B) (l : list A) :
  zip_with f (map h l) l = map (fun a => f (h a) a) l.
Proof.
  induction l as [|a l IH]; simpl; [reflexivity|]. now rewrite IH.
Qed.

Lemma qfloor_ge (floor_conc c : Q) : c <= qfloor floor_conc c.
Proof.
  unfold qfloor. destruct (Qle_bool floor_conc c) eqn:Hle; simpl; [lra|].
  destruct (Qlt_le_dec c floor_conc) as [Hlt|Hge]; [lra|].
  apply Qle_bool_iff in Hge. congruence.
Qed.

Lemma qvolume_nonneg (n : nat) (S : Q) (min_conc : xreal)
    (floor_conc total_nmol c : Q) :
  0 < S -> 0 < floor_conc -> 0 <= total_nmol ->
  0 <= qvolume n S min_conc floor_conc total_nmol c.
Proof.
  intros HS Hf Ht. unfold qvolume.
  pose proof (qfraction_nonneg n min_conc (XFin c)) as Hq.
  pose proof (qfloor_pos floor_conc c Hf) as Hfl.
  apply Qmult_le_0_compat; [|discriminate].
  apply Qdiv_nonneg; [|exact Hfl].
  apply Qmult_le_0_compat; [exact Ht|].
  apply Qmult_le_0_compat; [exact Hq|].
  apply Qdiv_nonneg; [discriminate|exact HS].
Qed.

Lemma qvolume_pos (n : nat) (S : Q) (min_conc : xreal)
    (floor_conc total_nmol c : Q) :
  (0 < n)%nat -> 0 < S -> 0 < floor_conc -> 0 < total_nmol ->
  xle (XFin c) min_conc = false ->
  0 < qvolume n S min_conc floor_conc total_nmol c.
Proof.
  intros Hn HS Hf Ht Hc. unfold qvolume.
  pose proof (qfraction_pos n min_conc (XFin c) Hn Hc) as Hq.
  pose proof (qfloor_pos floor_conc c Hf) as Hfl.
  change (inject_Z 1) with 1.
  assert (H1 : 0 < 1 / S) by (apply Qlt_shift_div_l; lra).
  assert (H2 : 0 < qfraction n min_conc (XFin c) * (1 / S)) by nra.
  assert (H3 : 0 < total_nmol
                   * (qfraction n min_conc (XFin c) * (1 / S))) by nra.
  assert (H4 : 0 < total_nmol
                   * (qfraction n min_conc (XFin c) * (1 / S))
                   / qfloor floor_conc c) by (apply Qlt_shift_div_l; lra).
  assert (HK : 0 < inject_Z (10 ^ 9)) by reflexivity.
  nra.
Qed.

(** Volume times floored concentration is the well's share of the total. *)
Lemma qvolume_times_floor (n : nat) (S : Q) (min_conc : xreal)
    (floor_conc total_nmol c : Q) :
  0 < S -> 0 < floor_conc ->
  qvolume n S min_conc floor_conc total_nmol c * qfloor floor_conc c
  == total_nmol * inject_Z (10 ^ 9) / S * qfraction n min_conc (XFin c).
Proof.
  intros HS Hf. unfold qvolume.
  pose proof (qfloor_pos floor_conc c Hf) as Hfl.
  change (inject_Z 1) with 1. field. split; lra.
Qed.

(** X14. The pool holds at most [total_nmol].  Without rounding, with the
    default fractions: for finite concentrations of which at least one is
    above [min_conc], [floor_conc > 0] and [total_nmol > 0], the volumes of
    [compute_shotgun_pooling_values_qpcr] give [estimate_pool_conc_vol] a
    positive pool volume and a pool concentration such that concentration
    times volume (in liters) is at most [total_nmol]; it is exactly
    [total_nmol] when no well above [min_conc] is below [floor_conc]. *)
Theorem qpcr_pool_within_total
    (sample_concs : matrix Q) (min_conc : xreal) (floor_conc total_nmol : Q) :
  0 < floor_conc -> 0 < total_nmol ->
  Exists (fun c => flt min_conc (XFin c) = true) (flatten sample_concs) ->
  exists sample_vols pool_conc pool_vol,
    compute_shotgun_pooling_values_qpcr (mmap XFin sample_concs) None
      min_conc (XFin floor_conc) (XFin total_nmol) = Ok sample_vols
    /\ estimate_pool_conc_vol sample_vols (mmap XFin sample_concs)
       = Ok (XFin pool_conc, XFin pool_vol)
    /\ 0 < pool_vol
    /\ pool_conc * (pool_vol * (inject_Z 1 / inject_Z (10 ^ 9))) <= total_nmol
    /\ (Forall (fun c => fle (XFin c) min_conc = false -> floor_conc <= c)
          (flatten sample_concs) ->
        pool_conc * (pool_vol * (inject_Z 1 / inject_Z (10 ^ 9)))
        == total_nmol).
Proof.
  intros Hf Ht Hex.
  assert (Hex' : Exists (fun c => flt min_conc c = true)
                   (flatten (mmap XFin sample_concs))).
  { rewrite flatten_mmap. now apply Exists_map. }
  pose proof (Exists_size_pos _ _ Hex') as Hn.
  pose proof (qpass_sum_pos _ _ Hex') as HS.
  rewrite qpcr_default_wells, renorm_factor; [|exact Hn|lra].
  unfold qpass_sum in *. rewrite flatten_mmap, map_map in *.
  set (n := size (mmap XFin sample_concs)) in *.
  set (cl := flatten sample_concs) in *.
  set (S := qsum (map (fun x => qfraction n min_conc (XFin x)) cl)) in *.
  set (wq := qvolume n S min_conc floor_conc total_nmol).
  exists (mmap XFin (mmap wq sample_concs)). do 2 eexists.
  split.
  { f_equal. rewrite !mmap_mmap. apply mmap_ext. intros c.
    now apply well_volume_fin. }
  rewrite (estimate_pool_fin (mmap wq sample_concs) sample_concs)
    by (now rewrite shape_mmap).
  rewrite flatten_mmap. fold cl.
  pose proof nl_scalar_pos as Hs.
  set (s := inject_Z 1 / inject_Z (10 ^ 9)) in *.
  set (B := qsum (map wq cl)).
  assert (HB : 0 < B).
  { apply qsum_pos.
    - apply Forall_map, Forall_forall. intros c _.
      apply qvolume_nonneg; lra.
    - apply Exists_map. eapply Exists_impl; [|exact Hex].
      intros c Hc. apply qvolume_pos; try assumption.
      now apply xlt_not_xle. }
  assert (Hz : Qzero (B * s) = false) by (apply Qzero_false; nra).
  unfold xdiv. rewrite Hz.
  split; [reflexivity|]. split; [exact HB|].
  set (A := qsum (zip_with (fun c v => c * v * s) cl (map wq cl))).
  assert (HA : A == qsum (map (fun c => wq c * c) cl) * s).
  { unfold A. rewrite qsum_zip_scaled, zip_with_map_l. reflexivity. }
  assert (Hfull : qsum (map (fun c => wq c * qfloor floor_conc c) cl) * s
                  == total_nmol).
  { rewrite (qsum_ext _ (fun c => total_nmol * inject_Z (10 ^ 9) / S
                                  * qfraction n min_conc (XFin c))).
    - rewrite <- (map_map (fun c => qfraction n min_conc (XFin c))
                          (Qmult (total_nmol * inject_Z (10 ^ 9) / S))).
      rewrite qsum_scale. fold S. unfold s.
      change (inject_Z 1) with 1. field. split; [discriminate|lra].
    - apply Forall_forall. intros c _. now apply qvolume_times_floor. }
  assert (Hprod : A / (B * s) * (B * s) == A) by (field; split; lra).
  split.
  - change (A / (B * s) * (B * s) <= total_nmol).
    rewrite Hprod, HA, <- Hfull.
    apply Qmult_le_compat_r; [|lra].
    apply qsum_le, Forall_forall. intros c _.
    pose proof (qvolume_nonneg n S min_conc floor_conc total_nmol c HS Hf
                  (Qlt_le_weak _ _ Ht)) as Hw.
    pose proof (qfloor_ge floor_conc c) as Hge. fold wq in Hw. nra.
  - intros Hall. change (A / (B * s) * (B * s) == total_nmol).
    rewrite Hprod, HA, <- Hfull.
    apply Qmult_comp; [|reflexivity].
    apply qsum_ext. eapply Forall_impl; [|exact Hall].
    intros c Hc. cbv beta in Hc.
    destruct (fle (XFin c) min_conc) eqn:Hpass.
    + change (fle (XFin c) min_conc) with (xle (XFin c) min_conc) in Hpass.
      unfold wq, qvolume, qfraction. rewrite Hpass.
      change (inject_Z 0) with 0. unfold Qdiv. ring.
    + specialize (Hc eq_refl).
      assert (Hfl : qfloor floor_conc c = c).
      { unfold qfloor. destruct (Qle_bool floor_conc c) eqn:Hle; [reflexivity|].
        assert (Hle' : Qle_bool floor_conc c = true) by (now apply Qle_bool_iff).
        congruence. }
      now rewrite Hfl.
Qed.

Lemma qpcr_pool_within_total_witness :
  exists sample_vols pool_conc pool_vol,
    compute_shotgun_pooling_values_qpcr
      (mmap XFin [[1; 12; 400]; [200; 40; 1]]) None
      (XFin 10) (XFin 50) (XFin (1 # 100)) = Ok sample_vols
    /\ estimate_pool_conc_vol sample_vols (mmap XFin [[1; 12; 400]; [200; 40; 1]])
       = Ok (XFin pool_conc, XFin pool_vol)
    /\ 0 < pool_vol
    /\ pool_conc * (pool_vol * (inject_Z 1 / inject_Z (10 ^ 9))) <= 1 # 100.
Proof.
  destruct (qpcr_pool_within_total [[1; 12; 400]; [200; 40; 1]]
              (XFin 10) 50 (1 # 100))
    as (vols & pc & pv & H1 & H2 & H3 & H4 & _).
  - reflexivity.
  - reflexivity.
  - apply Exists_cons_tl, Exists_cons_hd. reflexivity.
  - exists vols, pc, pv. auto.
Defined.

(** * Arrays without wells *)

Lemma size_zero_flatten {A} (m : matrix A) : size m = 0%nat -> flatten m = [].
Proof.
  unfold size. destruct (flatten m); [reflexivity|discriminate].
Qed.

Lemma mmap_no_wells {A} (f : A -> A) (m : matrix A) :
  size m = 0%nat -> mmap f m = m.
Proof.
  unfold size, flatten, mmap. induction m as [|row m IH]; intros Hs; simpl in *;
    [reflexivity|].
  rewrite length_app in Hs.
  destruct row; [|simpl in Hs; lia].
  simpl. f_equal. apply IH. simpl in Hs. exact Hs.
Qed.

Lemma estimate_no_wells_sums {F} `{Number F} (sample_vols sample_concs : matrix F) :
  shape sample_vols = shape sample_concs -> size sample_vols = 0%nat ->
  estimate_pool_conc_vol sample_vols sample_concs
  = Ok (fdiv (of_Z 0) (fmul (of_Z 0) nl_scalar), of_Z 0).
Proof.
  intros Hshape Hsize. unfold estimate_pool_conc_vol.
  rewrite (proj2 (same_shape_b_eq _ _) (eq_sym Hshape)). simpl negb. cbv iota.
  rewrite flatten_mmap, flatten_mzip_with by (now symmetry).
  rewrite (size_zero_flatten _ Hsize).
  destruct (flatten sample_concs); reflexivity.
Qed.

(** X15. Arrays without wells (no rows, or rows without entries).  On such an
    array [compute_shotgun_pooling_values_eqvol] raises [ZeroDivisionError],
    [compute_shotgun_pooling_values_qpcr] returns the array as it is without
    raising, and [estimate_pool_conc_vol] returns the pool volume 0 with the
    pool concentration NaN, on binary64 as without rounding. *)
Theorem arrays_without_wells :
  (forall (F : Type) (N : Number F) (sample_concs : matrix F) (total_vol : F),
      size sample_concs = 0%nat ->
      compute_shotgun_pooling_values_eqvol sample_concs total_vol
      = Raise ZeroDivisionError)
  /\ (forall (F : Type) (N : Number F) (sample_concs : matrix F)
             (min_conc floor_conc total_nmol : F),
        size sample_concs = 0%nat ->
        compute_shotgun_pooling_values_qpcr sample_concs None
          min_conc floor_conc total_nmol = Ok sample_concs)
  /\ (forall sample_vols sample_concs : matrix float,
        shape sample_vols = shape sample_concs -> size sample_vols = 0%nat ->
        estimate_pool_conc_vol sample_vols sample_concs
        = Ok (PrimFloat.nan, 0%float))
  /\ (forall sample_vols sample_concs : matrix xreal,
        shape sample_vols = shape sample_concs -> size sample_vols = 0%nat ->
        estimate_pool_conc_vol sample_vols sample_concs = Ok (XNaN, XFin 0)).
Proof.
  split; [|split; [|split]].
  - intros F N m V Hs. unfold compute_shotgun_pooling_values_eqvol.
    now rewrite Hs.
  - intros F N m mn fl tot Hs. rewrite qpcr_default_wells.
    now rewrite mmap_no_wells.
  - intros vols concs Hshape Hs. now rewrite estimate_no_wells_sums.
  - intros vols concs Hshape Hs. now rewrite estimate_no_wells_sums.
Qed.

Lemma arrays_without_wells_witness :
  compute_shotgun_pooling_values_eqvol (F := float) [[]; []] default_total_vol
  = Raise ZeroDivisionError
  /\ compute_shotgun_pooling_values_qpcr (F := float) [[]; []] None
       default_min_conc default_floor_conc default_total_nmol = Ok [[]; []]
  /\ estimate_pool_conc_vol (F := float) [[]; []] [[]; []]
     = Ok (PrimFloat.nan, 0%float).
Proof.
  split; [|split].
  - apply (proj1 arrays_without_wells float binary64). reflexivity.
  - apply (proj1 (proj2 arrays_without_wells) float binary64). reflexivity.
  - apply (proj1 (proj2 (proj2 arrays_without_wells))); reflexivity.
Defined.

(** * Volume against concentration *)

Lemma qfloor_mono (floor_conc c1 c2 : Q) :
  c1 <= c2 -> qfloor floor_conc c1 <= qfloor floor_conc c2.
Proof.
  intros Hle. unfold qfloor.
  destruct (Qle_bool floor_conc c1) eqn:H1, (Qle_bool floor_conc c2) eqn:H2;
    simpl; try lra.
  - apply Qle_bool_iff in H1.
    assert (H2' : Qle_bool floor_conc c2 = true) by (apply Qle_bool_iff; lra).
    congruence.
  - apply Qle_bool_iff in H2. exact H2.
Qed.

(** X16. More concentrated, less volume.  Without rounding, with the default
    fractions, a finite [min_conc], [floor_conc > 0] and [total_nmol >= 0]:
    on finite concentrations with at least one above [min_conc], the volume of
    a well is a function [vol_of] of its concentration alone, and among the
    wells above [min_conc] a higher concentration never gets a larger volume
    (it gets the same volume as long as both are at or below [floor_conc]). *)
Theorem qpcr_volume_antitone
    (sample_concs : matrix Q) (min_conc floor_conc total_nmol : Q) :
  0 < floor_conc -> 0 <= total_nmol ->
  Exists (fun c => min_conc < c) (flatten sample_concs) ->
  exists vol_of : Q -> Q,
    compute_shotgun_pooling_values_qpcr (mmap XFin sample_concs) None
      (XFin min_conc) (XFin floor_conc) (XFin total_nmol)
    = Ok (mmap (fun c => XFin (vol_of c)) sample_concs)
    /\ (forall c1 c2, min_conc < c1 -> c1 <= c2 -> vol_of c2 <= vol_of c1)
    /\ (forall c1 c2, min_conc < c1 -> c1 <= c2 -> c2 <= floor_conc ->
          vol_of c2 == vol_of c1).
Proof.
  intros Hf Ht Hex.
  assert (Hex' : Exists (fun c => flt (XFin min_conc) c = true)
                   (flatten (mmap XFin sample_concs))).
  { rewrite flatten_mmap. apply Exists_map.
    eapply Exists_impl; [|exact Hex]. intros c Hc. cbv beta in Hc. simpl.
    apply negb_true_iff. destruct (Qle_bool c min_conc) eqn:Hle; [|reflexivity].
    apply Qle_bool_iff in Hle. lra. }
  pose proof (Exists_size_pos _ _ Hex') as Hn.
  pose proof (qpass_sum_pos _ _ Hex') as HS.
  set (n := size (mmap XFin sample_concs)) in *.
  set (S := qpass_sum (mmap XFin sample_concs) (XFin min_conc)) in *.
  exists (qvolume n S (XFin min_conc) floor_conc total_nmol).
  split.
  { rewrite qpcr_default_wells, renorm_factor; [|exact Hn|fold S; lra].
    f_equal. rewrite mmap_mmap. apply mmap_ext. intros c.
    now apply well_volume_fin. }
  assert (Hpass : forall c, min_conc < c ->
            qfraction n (XFin min_conc) (XFin c)
            = inject_Z 1 / inject_Z (Z.of_nat n)).
  { intros c Hc. unfold qfraction. simpl.
    destruct (Qle_bool c min_conc) eqn:Hle; [|reflexivity].
    apply Qle_bool_iff in Hle. lra. }
  assert (Hnpos : 0 < inject_Z (Z.of_nat n)).
  { unfold Qlt, inject_Z. simpl. lia. }
  assert (HK : 0 < inject_Z (10 ^ 9)) by reflexivity.
  set (K := inject_Z (10 ^ 9)) in *.
  set (a := total_nmol * (inject_Z 1 / inject_Z (Z.of_nat n) * (inject_Z 1 / S))).
  assert (Ha : 0 <= a).
  { unfold a. change (inject_Z 1) with 1.
    apply Qmult_le_0_compat; [exact Ht|].
    apply Qmult_le_0_compat; apply Qdiv_nonneg; lra. }
  assert (Hform : forall c, min_conc < c ->
            qvolume n S (XFin min_conc) floor_conc total_nmol c
            = a / qfloor floor_conc c * K).
  { intros c Hc. unfold qvolume. now rewrite (Hpass c Hc). }
  split.
  - intros c1 c2 H1 H12.
    rewrite (Hform c1 H1), (Hform c2) by lra.
    pose proof (qfloor_pos floor_conc c1 Hf) as Hp1.
    pose proof (qfloor_pos floor_conc c2 Hf) as Hp2.
    pose proof (qfloor_mono floor_conc c1 c2 H12) as Hm.
    apply Qmult_le_compat_r; [|lra].
    apply Qle_shift_div_r; [exact Hp2|].
    setoid_replace (a / qfloor floor_conc c1 * qfloor floor_conc c2)
      with (a * (qfloor floor_conc c2 / qfloor floor_conc c1))
      by (field; lra).
    assert (1 <= qfloor floor_conc c2 / qfloor floor_conc c1)
      by (apply Qle_shift_div_l; lra).
    nra.
  - intros c1 c2 H1 H12 H2f.
    rewrite (Hform c1 H1), (Hform c2) by lra.
    assert (Hq : forall c, c <= floor_conc -> qfloor floor_conc c == floor_conc).
    { intros c Hc. unfold qfloor.
      destruct (Qle_bool floor_conc c) eqn:Hle; simpl; [|reflexivity].
      apply Qle_bool_iff in Hle. lra. }
    rewrite (Hq c1), (Hq c2) by lra. reflexivity.
Qed.

Lemma qpcr_volume_antitone_witness :
  exists vol_of : Q -> Q,
    compute_shotgun_pooling_values_qpcr
      (mmap XFin [[1; 12; 400]; [200; 40; 1]]) None
      (XFin 10) (XFin 50) (XFin (1 # 100))
    = Ok (mmap (fun c => XFin (vol_of c)) [[1; 12; 400]; [200; 40; 1]])
    /\ (forall c1 c2, 10 < c1 -> c1 <= c2 -> vol_of c2 <= vol_of c1)
    /\ (forall c1 c2, 10 < c1 -> c1 <= c2 -> c2 <= 50 ->
          vol_of c2 == vol_of c1).
Proof.
  apply (qpcr_volume_antitone [[1; 12; 400]; [200; 40; 1]] 10 50 (1 # 100)).
  - reflexivity.
  - discriminate.
  - apply Exists_cons_tl, Exists_cons_hd. reflexivity.
Defined.
